(** * Dual-formation geometry and animation engine: a shallow embedding

    The TypeScript sources ([utils/math], [components/Experience],
    [components/Foliage], [components/Ribbons], [components/Ornaments]) are
    embedded as Rocq functions, one per source function or frame callback.

    Numbers.  A JavaScript [number] is modelled by a real number: rounding
    and overflow of IEEE doubles are outside the model.  What the model does
    keep is every place where exact arithmetic on finite operands leaves the
    finite numbers or where the program throws: a division by zero, a square
    root of a negative number, an arc cosine outside [-1,1], and a field
    access on an array element that does not exist.  Code that contains such
    an operation returns [option]; [None] reads "a NaN or an Infinity was
    produced, or a TypeError was thrown".  Two places where the program's
    result hangs on rounding are kept as parameters instead: the GPU's
    evaluation of the simplex noise ([Foliage.snoise]) and the rounding of a
    number stored into a [Float32Array] of the particle field
    ([FoliagePoints.fround]).

    State.  React refs, the module-level scratch objects and the typed-array
    buffers that the frame callbacks mutate are passed explicitly. *)

From Stdlib Require Import Reals Lra Lia.
From stdpp Require Import base option list.

Open Scope R_scope.

(** ** Partial arithmetic *)

Definition fdiv (a b : R) : option R :=
  if Req_dec_T b 0 then None else Some (a / b).

(** [a || b] on numbers: [a] unless it is falsy (zero). *)
Definition num_or (a b : R) : R :=
  if Req_dec_T a 0 then b else a.

(** ** The parts of [Math] the sources call *)
Module Math.

Definition PI : R := Rtrigo1.PI.
Definition sin : R -> R := Rtrigo_def.sin.
Definition cos : R -> R := Rtrigo_def.cos.
Definition abs : R -> R := Rabs.

Definition sqrt (a : R) : option R :=
  if Rlt_dec a 0 then None else Some (R_sqrt.sqrt a).

Definition acos (a : R) : option R :=
  if Rlt_dec a (-1) then None
  else if Rlt_dec 1 a then None
  else Some (Ratan.acos a).

(** The real cube root, odd and defined everywhere. *)
Definition cbrt (a : R) : R :=
  match total_order_T a 0 with
  | inleft (left _) => - Rpower (- a) (/ 3)
  | inleft (right _) => 0
  | inright _ => Rpower a (/ 3)
  end.

End Math.

(** ** [types.ts] *)

Inductive TreeState : Set := SCATTERED | TREE_SHAPE.

Definition triple : Type := R * R * R.

Record PositionData : Type := {
  treePosition : triple;
  scatterPosition : triple;
  rotation : triple;
  scale : R;
  speed : R;
  phase : R
}.

(** ** [components/Experience.tsx]: the progress controller *)
Module Experience.

(** What [SceneContent] keeps between frames: the [animationProgress] ref
    and the y-rotation of the group behind [groupRef] (taken as mounted). *)
Record Scene : Type := {
  animationProgress : R;
  rotation_y : R
}.

Definition targetProgress (treeState : TreeState) : R :=
  match treeState with TREE_SHAPE => 1 | SCATTERED => 0 end.

(** The [useFrame] callback of [SceneContent]. *)
Definition useFrame (treeState : TreeState) (delta : R) (s : Scene) : Scene :=
  let speed := 2.0 * delta in
  let diff := targetProgress treeState - animationProgress s in
  let current :=
    if Rlt_dec 0.001 (Math.abs diff)
    then animationProgress s + diff * speed
    else targetProgress treeState in
  {| animationProgress := current;
     rotation_y :=
       match treeState with
       | TREE_SHAPE => rotation_y s + delta * 0.1
       | SCATTERED => rotation_y s
       end |}.

(** Successive frames with the deltas of [dts], the prop [treeState]
    being held fixed. *)
Definition run (treeState : TreeState) (dts : list R) (s : Scene) : Scene :=
  fold_left (fun acc delta => useFrame treeState delta acc) dts s.

(** The value of the ref after one frame and after a run, started at [c]. *)
Definition tick (treeState : TreeState) (delta c : R) : R :=
  animationProgress
    (useFrame treeState delta {| animationProgress := c; rotation_y := 0 |}).

Definition progress_after (treeState : TreeState) (dts : list R) (c : R) : R :=
  animationProgress
    (run treeState dts {| animationProgress := c; rotation_y := 0 |}).

End Experience.

(** ** Small program constructs *)

(** [for (i of indices) body(i)] over a state, stopping at the first
    failure. *)
Fixpoint for_each {St : Type} (body : nat -> St -> option St)
    (indices : list nat) (s : St) : option St :=
  match indices with
  | [] => Some s
  | i :: rest => s' ← body i s; for_each body rest s'
  end.

(** [source.forEach((item, i) => ...)] with the index made explicit. *)
Fixpoint forEach_from {A St : Type} (body : A -> nat -> St -> St)
    (i : nat) (items : list A) (s : St) : St :=
  match items with
  | [] => s
  | item :: rest => forEach_from body (S i) rest (body item i s)
  end.

(** Writing [vals] into a typed array from offset [off] on; a typed array
    ignores a write past its end, as list insertion does. *)
Fixpoint write_at (off : nat) (vals : list R) (arr : list R) : list R :=
  match vals with
  | [] => arr
  | v :: rest => write_at (S off) rest (<[off := v]> arr)
  end.

(** The [k]-th and later results of [Math.random]. *)
Definition later (k : nat) (rand : nat -> R) : nat -> R :=
  fun n => rand (n + k)%nat.

(** ** [utils/math.ts] *)
Module MathUtil.

(** [rand n] is what the [n]-th call of [Math.random] returns. *)
Definition getScatterPosition (radius : R) (rand : nat -> R) : option triple :=
  let u := rand 0%nat in
  let v := rand 1%nat in
  let theta := 2 * Math.PI * u in
  phi ← Math.acos (2 * v - 1);
  let r := Math.cbrt (rand 2%nat) * radius in
  let x := r * Math.sin phi * Math.cos theta in
  let y := r * Math.sin phi * Math.sin theta in
  let z := r * Math.cos phi in
  Some (x, y, z).

Definition goldenAngle : R := Math.PI * (3 - R_sqrt.sqrt 5).

Definition getTreePosition (height baseRadius yOffset : R)
    (index total : nat) (rand : nat -> R) : option triple :=
  root5 ← Math.sqrt 5;
  let goldenAngle := Math.PI * (3 - root5) in
  frac ← fdiv (INR index) (INR total);
  let y := frac * height in
  rel ← fdiv y height;
  let radiusAtHeight := (1 - rel) * baseRadius in
  spread ← Math.sqrt (rand 0%nat);
  let r := radiusAtHeight * spread in
  let theta := INR index * goldenAngle in
  let x := r * Math.cos theta in
  let z := r * Math.sin theta in
  Some (x, y - yOffset, z).

End MathUtil.

(** ** The parts of three.js the components call

    These follow the library's own method bodies (Vector3, Quaternion,
    Matrix4, BufferAttribute, MathUtils); methods that mutate [this] return
    the new value. *)
Module THREE.

Module MathUtils.
Definition lerp (x y t : R) : R := (1 - t) * x + t * y.
End MathUtils.

Record Vector3 : Type := mkVector3 { x : R; y : R; z : R }.

Record Quaternion : Type := mkQuaternion { qx : R; qy : R; qz : R; qw : R }.

Definition crossVectors (a b : Vector3) : Vector3 :=
  mkVector3 (y a * z b - z a * y b)
            (z a * x b - x a * z b)
            (x a * y b - y a * x b).

Definition multiplyScalar (v : Vector3) (s : R) : Vector3 :=
  mkVector3 (x v * s) (y v * s) (z v * s).

Definition divideScalar (v : Vector3) (s : R) : option Vector3 :=
  inv ← fdiv 1 s; Some (multiplyScalar v inv).

Definition length (v : Vector3) : option R :=
  Math.sqrt (x v * x v + y v * y v + z v * z v).

(** [this.divideScalar(this.length() || 1)] *)
Definition normalize (v : Vector3) : option Vector3 :=
  len ← length v; divideScalar v (num_or len 1).

Definition setFromAxisAngle (axis : Vector3) (angle : R) : Quaternion :=
  let halfAngle := angle / 2 in
  let s := Math.sin halfAngle in
  mkQuaternion (x axis * s) (y axis * s) (z axis * s) (Math.cos halfAngle).

Definition applyQuaternion (v : Vector3) (q : Quaternion) : Vector3 :=
  let tx := 2 * (qy q * z v - qz q * y v) in
  let ty := 2 * (qz q * x v - qx q * z v) in
  let tz := 2 * (qx q * y v - qy q * x v) in
  mkVector3 (x v + qw q * tx + qy q * tz - qz q * ty)
            (y v + qw q * ty + qz q * tx - qx q * tz)
            (z v + qw q * tz + qx q * ty - qy q * tx).

Definition applyAxisAngle (v axis : Vector3) (angle : R) : Vector3 :=
  applyQuaternion v (setFromAxisAngle axis angle).

(** [Quaternion.setFromEuler] for the default order XYZ. *)
Definition setFromEuler (e : Vector3) : Quaternion :=
  let c1 := Math.cos (x e / 2) in
  let c2 := Math.cos (y e / 2) in
  let c3 := Math.cos (z e / 2) in
  let s1 := Math.sin (x e / 2) in
  let s2 := Math.sin (y e / 2) in
  let s3 := Math.sin (z e / 2) in
  mkQuaternion (s1 * c2 * c3 + c1 * s2 * s3)
               (c1 * s2 * c3 - s1 * c2 * s3)
               (c1 * c2 * s3 + s1 * s2 * c3)
               (c1 * c2 * c3 - s1 * s2 * s3).

(** [Matrix4.compose]: the sixteen elements, column-major. *)
Definition compose (position : Vector3) (q : Quaternion) (scale : Vector3)
    : list R :=
  let x2 := qx q + qx q in
  let y2 := qy q + qy q in
  let z2 := qz q + qz q in
  let xx := qx q * x2 in
  let xy := qx q * y2 in
  let xz := qx q * z2 in
  let yy := qy q * y2 in
  let yz := qy q * z2 in
  let zz := qz q * z2 in
  let wx := qw q * x2 in
  let wy := qw q * y2 in
  let wz := qw q * z2 in
  let sx := x scale in
  let sy := y scale in
  let sz := z scale in
  [ (1 - (yy + zz)) * sx; (xy + wz) * sx; (xz - wy) * sx; 0;
    (xy - wz) * sy; (1 - (xx + zz)) * sy; (yz + wx) * sy; 0;
    (xz + wy) * sz; (yz - wx) * sz; (1 - (xx + yy)) * sz; 0;
    x position; y position; z position; 1 ].

(** [Vector3.setFromMatrixPosition]: elements 12, 13 and 14. *)
Definition setFromMatrixPosition (m : list R) : option Vector3 :=
  a ← m !! 12%nat;
  b ← m !! 13%nat;
  c ← m !! 14%nat;
  Some (mkVector3 a b c).

Record Object3D : Type := mkObject3D {
  position : Vector3;
  rotation : Vector3;
  quaternion : Quaternion;
  scale : Vector3;
  matrix : list R
}.

(** [Euler.set] notifies the object, which refreshes its quaternion. *)
Definition rotation_set (o : Object3D) (a b c : R) : Object3D :=
  let e := mkVector3 a b c in
  mkObject3D (position o) e (setFromEuler e) (scale o) (matrix o).

Definition position_set (o : Object3D) (a b c : R) : Object3D :=
  mkObject3D (mkVector3 a b c) (rotation o) (quaternion o) (scale o) (matrix o).

Definition scale_setScalar (o : Object3D) (s : R) : Object3D :=
  mkObject3D (position o) (rotation o) (quaternion o) (mkVector3 s s s) (matrix o).

Definition updateMatrix (o : Object3D) : Object3D :=
  mkObject3D (position o) (rotation o) (quaternion o) (scale o)
             (compose (position o) (quaternion o) (scale o)).

(** [InstancedMesh.setMatrixAt]: [matrix.toArray(instanceMatrix.array, 16 i)]. *)
Definition setMatrixAt (instanceMatrix : list R) (i : nat) (m : list R) : list R :=
  write_at (i * 16) m instanceMatrix.

(** [InstancedMesh.getMatrixAt]: the sixteen numbers from [16 i] on. *)
Definition getMatrixAt (instanceMatrix : list R) (i : nat) : list R :=
  take 16 (drop (i * 16) instanceMatrix).

Record BufferAttribute : Type := mkBufferAttribute {
  array : list R;
  itemSize : nat
}.

Definition count (a : BufferAttribute) : nat :=
  (List.length (array a) / itemSize a)%nat.

Definition setXYZ (a : BufferAttribute) (index : nat) (vx vy vz : R)
    : BufferAttribute :=
  let index := (index * itemSize a)%nat in
  mkBufferAttribute
    (<[(index + 2)%nat := vz]> (<[(index + 1)%nat := vy]> (<[(index + 0)%nat := vx]> (array a))))
    (itemSize a).

(** [getX], [getY] and [getZ] of vertex [index], read together. *)
Definition getXYZ (a : BufferAttribute) (index : nat) : option Vector3 :=
  let index := (index * itemSize a)%nat in
  vx ← array a !! (index + 0)%nat;
  vy ← array a !! (index + 1)%nat;
  vz ← array a !! (index + 2)%nat;
  Some (mkVector3 vx vy vz).

End THREE.

(** ** [components/Foliage.tsx]: the vertex stage of the particle field *)
Module Foliage.

(** GLSL vectors and the component-wise built-ins [main] uses. *)
Record vec3 : Type := mkvec3 { x : R; y : R; z : R }.

Definition mix (a b t : R) : R := a * (1 - t) + b * t.

Definition map3 (f : R -> R) (v : vec3) : vec3 :=
  mkvec3 (f (x v)) (f (y v)) (f (z v)).
Definition zip3 (f : R -> R -> R) (a b : vec3) : vec3 :=
  mkvec3 (f (x a) (x b)) (f (y a) (y b)) (f (z a) (z b)).
Definition mix3 (a b : vec3) (t : R) : vec3 := zip3 (fun p q => mix p q t) a b.

(** The uniforms and attributes [main] reads; the camera matrices act on
    the finished position only and are left out. *)
Record Uniforms : Type := {
  uTime : R;
  uProgress : R;
  uColorHigh : vec3;
  uColorLow : vec3;
  uColorGold : vec3
}.

Record Attributes : Type := {
  aScatterPos : vec3;
  aTreePos : vec3;
  aRandom : R
}.

Record Varyings : Type := {
  pos : vec3;
  size : R;
  vColor : vec3;
  vAlpha : R
}.

Definition floatIntensity (progress : R) : R := mix 2.0 0.1 progress.

Section VertexStage.

(** [snoise], the simplex noise of the shader, as the GPU evaluates it.
    Its body selects lattice gradients with [floor] and [step] of products
    that sit on integers (for one, [floor(p * ns.z * ns.z)] with
    [ns.z = 0.142857142857] and [p] a multiple of 49), so which gradient is
    selected depends on how the GPU rounds its floats: the function is not a
    function of real arithmetic, and [main] is embedded over whatever
    function the GPU computes. *)
Variable snoise : vec3 -> R.

(** Where the noise is sampled for a particle whose blend is [p]. *)
Definition noiseVal (time : R) (p : vec3) : R :=
  snoise (map3 (fun a => a * 0.5 + time * 0.5) p).

Definition main (u : Uniforms) (a : Attributes) : Varyings :=
  let pos := mix3 (aScatterPos a) (aTreePos a) (uProgress u) in
  let floatIntensity := floatIntensity (uProgress u) in
  let noiseVal := noiseVal (uTime u) pos in
  let pos := zip3 Rplus pos (mkvec3 0.0 (noiseVal * floatIntensity * 0.5) 0.0) in
  let size := mix 15.0 8.0 (uProgress u) in
  let vColor := mix3 (uColorLow u) (uColorHigh u) (aRandom a) in
  let vColor :=
    if Rlt_dec 0.6 noiseVal then mix3 vColor (uColorGold u) 0.8 else vColor in
  {| pos := pos; size := size; vColor := vColor;
     vAlpha := mix 0.6 0.9 (uProgress u) |}.

End VertexStage.

(** The [useFrame] callback of [Foliage]: it only refreshes two uniforms. *)
Definition useFrame (elapsedTime animationProgress : R) (u : Uniforms) : Uniforms :=
  {| uTime := elapsedTime; uProgress := animationProgress;
     uColorHigh := uColorHigh u; uColorLow := uColorLow u;
     uColorGold := uColorGold u |}.

End Foliage.

(** ** [components/Ribbons.tsx]: the ribbon strip builder *)
Module Ribbons.
Import THREE.

(** The props of one [Ribbon]; [length] is destructured as [segments].
    The colour only reaches the material and is left out. *)
Record RibbonProps : Type := {
  width : R;
  segments : nat;
  radius : R;
  turns : R;
  yStart : R;
  yEnd : R;
  phaseOffset : R;
  scatterRadius : R
}.

Record Paths : Type := {
  treePath : list Vector3;
  scatterPath : list Vector3
}.

(** A [BufferGeometry]: an attribute is absent until it is set. *)
Record Geometry : Type := {
  position : option BufferAttribute;
  uv : option BufferAttribute;
  index : option (list nat);
  normal : option (list R)
}.

(** [<bufferGeometry />] as mounted. *)
Definition emptyGeometry : Geometry :=
  {| position := None; uv := None; index := None; normal := None |}.

(** The scratch vectors the frame callback allocates and then mutates in
    its loop. *)
Record Scratch : Type := {
  tangent : Vector3;
  normal_ : Vector3;
  sideOffset : Vector3
}.

Section Ribbon.
(** [new THREE.CatmullRomCurve3(controlPoints).getPoint(t)] and the
    numbers [BufferGeometry.computeVertexNormals] derives from the
    position array and the index: library code, kept abstract. *)
Variable getPoint : list Vector3 -> R -> Vector3.
Variable vertexNormals : list R -> option (list nat) -> list R.
Variable props : RibbonProps.

(** *** 1. the paths ([useMemo]) *)

Definition treePoint (i : nat) : option Vector3 :=
  t ← fdiv (INR i) (INR (segments props));
  let y := MathUtils.lerp (yStart props) (yEnd props) t in
  hNorm ← fdiv (y - yStart props) (yEnd props - yStart props);
  let currentRadius := MathUtils.lerp (radius props) 0.5 hNorm in
  let angle := t * Math.PI * 2 * turns props + phaseOffset props in
  let x := Math.cos angle * currentRadius in
  let z := Math.sin angle * currentRadius in
  Some (mkVector3 x y z).

(** Control point [i] draws its radius, its [theta] and its [phi], in
    that order. *)
Definition controlPoint (rand : nat -> R) : option Vector3 :=
  let r := scatterRadius props * Math.cbrt (rand 0%nat) in
  let theta := rand 1%nat * Math.PI * 2 in
  phi ← Math.acos (2 * rand 2%nat - 1);
  Some (mkVector3 (r * Math.sin phi * Math.cos theta)
                  (r * Math.sin phi * Math.sin theta)
                  (r * Math.cos phi)).

Definition numControlPoints : nat := 5.

Definition makePaths (rand : nat -> R) : option Paths :=
  treePath ←
    for_each (fun i acc => p ← treePoint i; Some (acc ++ [p]))
             (seq 0 (S (segments props))) [];
  controlPoints ←
    for_each (fun i acc => p ← controlPoint (later (3 * i) rand); Some (acc ++ [p]))
             (seq 0 numControlPoints) [];
  scatterPath ←
    for_each (fun i acc =>
                t ← fdiv (INR i) (INR (segments props));
                Some (acc ++ [getPoint controlPoints t]))
             (seq 0 (S (segments props))) [];
  Some {| treePath := treePath; scatterPath := scatterPath |}.

(** *** 2. the initial geometry ([useLayoutEffect]) *)

(** One turn of the set-up loop, on the uv array and the index list. *)
Definition layoutStep (i : nat) (st : list R * list nat)
    : option (list R * list nat) :=
  let '(uvs, indices) := st in
  v ← fdiv (INR i) (INR (segments props));
  let uvs :=
    <[(i * 4 + 3)%nat := v]>
      (<[(i * 4 + 2)%nat := 1]>
         (<[(i * 4 + 1)%nat := v]>
            (<[(i * 4 + 0)%nat := 0]> uvs))) in
  let indices :=
    if (i <? segments props)%nat then
      let base := (i * 2)%nat in
      indices ++ [base; (base + 1)%nat; (base + 2)%nat]
              ++ [(base + 1)%nat; (base + 3)%nat; (base + 2)%nat]
    else indices in
  Some (uvs, indices).

Definition useLayoutEffect (geometry : Geometry) : option Geometry :=
  let vertexCount := ((segments props + 1) * 2)%nat in
  let positions := replicate (vertexCount * 3) 0 in
  let uvs := replicate (vertexCount * 2) 0 in
  filled ←
    for_each layoutStep (seq 0 (S (segments props))) (uvs, @nil nat);
  Some {| position := Some (mkBufferAttribute positions 3);
          uv := Some (mkBufferAttribute filled.1 2);
          index := Some filled.2;
          normal := normal geometry |}.

(** *** 3. the animation loop ([useFrame]) *)

Definition binormal : Vector3 := mkVector3 0 1 0.

(** [progress * progress * (3 - 2 * progress)] *)
Definition easing (progress : R) : R :=
  progress * progress * (3 - 2 * progress).

(** The blended and noised centre at path index [i]; the callback
    spells this out twice, for [i] and for [iNext]. *)
Definition center (paths : Paths) (t time : R) (i : nat) : option Vector3 :=
  pScatter ← scatterPath paths !! i;
  pTree ← treePath paths !! i;
  let floatFactor := 1.0 - t in
  let noiseX :=
    Math.sin (time * 0.5 + INR i * 0.1 + phaseOffset props) * floatFactor * 1.5 in
  let noiseY := Math.cos (time * 0.3 + INR i * 0.1) * floatFactor * 1.5 in
  let noiseZ := Math.sin (time * 0.4 + INR i * 0.05) * floatFactor * 1.5 in
  Some (mkVector3 (MathUtils.lerp (x pScatter + noiseX) (x pTree) t)
                  (MathUtils.lerp (y pScatter + noiseY) (y pTree) t)
                  (MathUtils.lerp (z pScatter + noiseZ) (z pTree) t)).

(** The finite difference the tangent is normalised from. *)
Definition difference (paths : Paths) (t time : R) (i : nat) : option Vector3 :=
  c ← center paths t time i;
  let iNext := Nat.min (i + 1) (segments props) in
  n ← center paths t time iNext;
  Some (mkVector3 (x n - x c) (y n - y c) (z n - z c)).

Definition tangent_at (paths : Paths) (t time : R) (i : nat) : option Vector3 :=
  d ← difference paths t time i;
  if (i =? segments props)%nat
  then Some (mkVector3 0 1 0)
  else normalize d.

Definition twistAngle (t : R) (i : nat) : R := INR i * 0.1 * (1 - t) * 5.

Definition normal_at (paths : Paths) (t time : R) (i : nat) : option Vector3 :=
  tangent ← tangent_at paths t time i;
  normal ← normalize (crossVectors tangent binormal);
  if Req_dec_T (twistAngle t i) 0
  then Some normal
  else Some (applyAxisAngle normal tangent (twistAngle t i)).

(** One turn of the loop, on the position attribute and the scratch
    vectors. *)
Definition step (paths : Paths) (t time : R) (i : nat)
    (st : BufferAttribute * Scratch) : option (BufferAttribute * Scratch) :=
  let '(posAttr, scratch) := st in
  c ← center paths t time i;
  tangent ← tangent_at paths t time i;
  let scratch :=
    {| tangent := tangent; normal_ := normal_ scratch;
       sideOffset := sideOffset scratch |} in
  normal ← normal_at paths t time i;
  let scratch :=
    {| tangent := tangent; normal_ := normal;
       sideOffset := sideOffset scratch |} in
  let side := multiplyScalar (normal_ scratch) (width props * 0.5) in
  let scratch :=
    {| tangent := tangent; normal_ := normal; sideOffset := side |} in
  let posAttr :=
    setXYZ posAttr (i * 2) (x c + x side) (y c + y side) (z c + z side) in
  let posAttr :=
    setXYZ posAttr (i * 2 + 1) (x c - x side) (y c - y side) (z c - z side) in
  Some (posAttr, scratch).

Definition useFrame (paths : Paths) (elapsedTime animationProgress : R)
    (geo : Geometry) : option Geometry :=
  posAttr ← position geo;
  let progress := animationProgress in
  let t := easing progress in
  let time := elapsedTime in
  let scratch :=
    {| tangent := mkVector3 0 0 0; normal_ := mkVector3 0 0 0;
       sideOffset := mkVector3 0 0 0 |} in
  done ← for_each (step paths t time) (seq 0 (S (segments props)))
                  (posAttr, scratch);
  Some {| position := Some done.1;
          uv := uv geo;
          index := index geo;
          normal := Some (vertexNormals (array done.1) (index geo)) |}.

End Ribbon.

End Ribbons.

(** ** [components/Ornaments.tsx]: the instanced ornament animator *)
Module Ornaments.
(** What the callbacks of one [Ornaments] mutate: the module-level
    [tempObject] and the instance-transform buffer of the mesh. *)
Record State : Type := {
  tempObject : THREE.Object3D;
  instanceMatrix : list R
}.

(** One item of [data]; it consumes twelve draws, in source order. *)
Definition makeItem (scaleBase : R) (i count : nat) (rand : nat -> R)
    : option PositionData :=
  treePos ← MathUtil.getTreePosition 11 4.5 6 i count rand;
  let treePos :=
    (treePos.1.1 + (rand 1%nat - 0.5) * 0.5,
     treePos.1.2 + (rand 2%nat - 0.5) * 0.5,
     treePos.2 + (rand 3%nat - 0.5) * 0.5) in
  scatterPos ← MathUtil.getScatterPosition 12 (later 4 rand);
  Some {| treePosition := treePos;
          scatterPosition := scatterPos;
          rotation := (rand 7%nat * Math.PI, rand 8%nat * Math.PI, 0);
          scale := scaleBase * (0.8 + rand 9%nat * 0.4);
          speed := 0.2 + rand 10%nat * 0.5;
          phase := rand 11%nat * Math.PI * 2 |}.

Definition makeData (count : nat) (scaleBase : R) (rand : nat -> R)
    : option (list PositionData) :=
  for_each
    (fun i items =>
       item ← makeItem scaleBase i count (later (12 * i) rand);
       Some (items ++ [item]))
    (seq 0 count) [].

(** The initial paint ([useLayoutEffect]). *)
Definition useLayoutEffect (data : list PositionData) (st : State) : State :=
  forEach_from
    (fun item i st =>
       let o := tempObject st in
       let o := THREE.position_set o (scatterPosition item).1.1
                             (scatterPosition item).1.2
                             (scatterPosition item).2 in
       let o := THREE.rotation_set o (rotation item).1.1 (rotation item).1.2
                             (rotation item).2 in
       let o := THREE.scale_setScalar o (scale item) in
       let o := THREE.updateMatrix o in
       {| tempObject := o;
          instanceMatrix := THREE.setMatrixAt (instanceMatrix st) i (THREE.matrix o) |})
    0 data st.

(** [progress * progress * (3 - 2 * progress)] *)
Definition smoothstep (progress : R) : R :=
  progress * progress * (3 - 2 * progress).

(** The position handed to [tempObject.position.set] for an item. *)
Definition itemPosition (item : PositionData) (progress time : R) : THREE.Vector3 :=
  let t := smoothstep progress in
  let x := THREE.MathUtils.lerp (scatterPosition item).1.1 (treePosition item).1.1 t in
  let y := THREE.MathUtils.lerp (scatterPosition item).1.2 (treePosition item).1.2 t in
  let z := THREE.MathUtils.lerp (scatterPosition item).2 (treePosition item).2 t in
  let floatFactor := 1.0 - t in
  let floatY := Math.sin (time * speed item + phase item) * floatFactor * 0.5 in
  THREE.mkVector3 x (y + floatY) z.

(** One turn of [data.forEach] in the frame callback. *)
Definition animate (progress time : R) (item : PositionData) (i : nat)
    (st : State) : State :=
  let t := smoothstep progress in
  let floatFactor := 1.0 - t in
  let floatRot := time * speed item * 0.2 * floatFactor in
  let p := itemPosition item progress time in
  let o := tempObject st in
  let o := THREE.position_set o (THREE.x p) (THREE.y p) (THREE.z p) in
  let o := THREE.rotation_set o ((rotation item).1.1 + floatRot)
                        ((rotation item).1.2 + floatRot)
                        (rotation item).2 in
  let o := THREE.scale_setScalar o (scale item) in
  let o := THREE.updateMatrix o in
  {| tempObject := o;
     instanceMatrix := THREE.setMatrixAt (instanceMatrix st) i (THREE.matrix o) |}.

Definition useFrame (data : list PositionData)
    (elapsedTime animationProgress : R) (st : State) : State :=
  let progress := animationProgress in
  let time := elapsedTime in
  forEach_from (animate progress time) 0 data st.

(** The position of instance [i] as the renderer reads it back from the
    transform buffer. *)
Definition instancePosition (st : State) (i : nat) : option THREE.Vector3 :=
  THREE.setFromMatrixPosition (THREE.getMatrixAt (instanceMatrix st) i).

End Ornaments.

(** ** Notions used to state the properties *)

(** Euclidean length of a position triple. *)
Definition norm (p : triple) : R :=
  R_sqrt.sqrt (p.1.1 * p.1.1 + p.1.2 * p.1.2 + p.2 * p.2).

(** The point at height [h], at distance [r] from the vertical axis, in
    the direction [theta] around it. *)
Definition polar (r theta h : R) : triple :=
  (r * Math.cos theta, h, r * Math.sin theta).

(** The point at distance [r] from the origin with azimuth [theta] and
    polar angle [phi], in the axis order [getScatterPosition] uses. *)
Definition spherical (r theta phi : R) : triple :=
  (r * Math.sin phi * Math.cos theta,
   r * Math.sin phi * Math.sin theta,
   r * Math.cos phi).



(** The paths of a ribbon have one sample per path index [0..segments],
    as [makePaths] builds them. *)
Definition paths_ok (props : Ribbons.RibbonProps) (paths : Ribbons.Paths) : Prop :=
  length (Ribbons.treePath paths) = S (Ribbons.segments props)
  /\ length (Ribbons.scatterPath paths) = S (Ribbons.segments props).

(** The position attribute of a ribbon geometry has the layout
    [useLayoutEffect] gives it: three numbers for each of the
    [2 (segments + 1)] vertices. *)
Definition position_ok (props : Ribbons.RibbonProps) (geo : Ribbons.Geometry) : Prop :=
  exists posAttr,
    Ribbons.position geo = Some posAttr
    /\ THREE.itemSize posAttr = 3%nat
    /\ length (THREE.array posAttr) = (6 * S (Ribbons.segments props))%nat.

(** The six numbers one turn of the ribbon loop writes for path index [i]:
    the left vertex, then the right one. *)
Definition stripEntries (props : Ribbons.RibbonProps) (paths : Ribbons.Paths)
    (t time : R) (i : nat) : list R :=
  match Ribbons.center props paths t time i,
        Ribbons.normal_at props paths t time i with
  | Some c, Some normal =>
      let side := THREE.multiplyScalar normal (Ribbons.width props * 0.5) in
      [ THREE.x c + THREE.x side; THREE.y c + THREE.y side; THREE.z c + THREE.z side;
        THREE.x c - THREE.x side; THREE.y c - THREE.y side; THREE.z c - THREE.z side ]
  | _, _ => []
  end.

(** The numbers written for the path indices below [k]. *)
Definition stripPrefix (props : Ribbons.RibbonProps) (paths : Ribbons.Paths)
    (t time : R) (k : nat) : list R :=
  flat_map (stripEntries props paths t time) (seq 0 k).

(** Successive ribbon frames, one per (elapsed time, progress) pair. *)
Fixpoint ribbonFrames (vertexNormals : list R -> option (list nat) -> list R)
    (props : Ribbons.RibbonProps) (paths : Ribbons.Paths)
    (ticks : list (R * R)) (geo : Ribbons.Geometry) : option Ribbons.Geometry :=
  match ticks with
  | [] => Some geo
  | (time, progress) :: rest =>
      geo' ← Ribbons.useFrame vertexNormals props paths time progress geo;
      ribbonFrames vertexNormals props paths rest geo'
  end.

(** A one-segment ribbon with the parameters of the first gold ribbon, and
    paths of two samples for it, as concrete input. *)
Definition sampleProps : Ribbons.RibbonProps :=
  {| Ribbons.width := 0.6; Ribbons.segments := 1; Ribbons.radius := 6;
     Ribbons.turns := 3.5; Ribbons.yStart := -5; Ribbons.yEnd := 7;
     Ribbons.phaseOffset := 0; Ribbons.scatterRadius := 15 |}.

Definition samplePaths : Ribbons.Paths :=
  {| Ribbons.treePath := [THREE.mkVector3 6 (-5) 0; THREE.mkVector3 (-0.5) 7 0];
     Ribbons.scatterPath := [THREE.mkVector3 0 0 0; THREE.mkVector3 1 2 3] |}.

(** Paths whose two samples coincide, in both formations. *)
Definition coincidentPaths : Ribbons.Paths :=
  {| Ribbons.treePath := [THREE.mkVector3 0 0 0; THREE.mkVector3 0 0 0];
     Ribbons.scatterPath := [THREE.mkVector3 0 0 0; THREE.mkVector3 0 0 0] |}.

(** A geometry whose position attribute holds arbitrary earlier contents. *)
Definition sampleGeometry (fill : R) : Ribbons.Geometry :=
  {| Ribbons.position := Some (THREE.mkBufferAttribute (replicate 12 fill) 3);
     Ribbons.uv := None; Ribbons.index := None; Ribbons.normal := None |}.

(** [new THREE.Vector3(...p)] *)
Definition Vector3_of (p : triple) : THREE.Vector3 :=
  THREE.mkVector3 p.1.1 p.1.2 p.2.

(** What [tempObject] holds once a turn of the ornament loop has set its
    position, rotation and scale and refreshed its matrix for [item]. *)
Definition itemObject (item : PositionData) (progress time : R) : THREE.Object3D :=
  let floatRot :=
    time * speed item * 0.2 * (1.0 - Ornaments.smoothstep progress) in
  let e :=
    THREE.mkVector3 ((rotation item).1.1 + floatRot)
                    ((rotation item).1.2 + floatRot)
                    (rotation item).2 in
  let p := Ornaments.itemPosition item progress time in
  let s := THREE.mkVector3 (scale item) (scale item) (scale item) in
  THREE.mkObject3D p e (THREE.setFromEuler e) s
                   (THREE.compose p (THREE.setFromEuler e) s).

(** One ornament, and a state whose buffer holds arbitrary earlier contents,
    as concrete input. *)
Definition sampleItem : PositionData :=
  {| treePosition := (1, 2, 3);
     scatterPosition := (0, 0, 0);
     rotation := (0, 0, 0);
     scale := 0.35;
     speed := 0.5;
     phase := Math.PI / 2 |}.

Definition sampleState (fill : R) : Ornaments.State :=
  {| Ornaments.tempObject :=
       THREE.mkObject3D (THREE.mkVector3 fill fill fill)
                        (THREE.mkVector3 fill fill fill)
                        (THREE.mkQuaternion 0 0 0 1)
                        (THREE.mkVector3 1 1 1)
                        (replicate 16 fill);
     Ornaments.instanceMatrix := replicate 16 fill |}.

(** ** Further components *)

(** [Float32Array.prototype.set(source, offset)]: a RangeError when the
    source does not fit behind the offset. *)
Definition typed_set (arr vals : list R) (off : nat) : option (list R) :=
  if (off + length vals <=? length arr)%nat
  then Some (write_at off vals arr)
  else None.

(** [components/Foliage.tsx]: the buffers of the component and the fragment
    stage of its material. *)
Module FoliagePoints.

Record Buffers : Type := {
  positionsScatter : list R;
  positionsTree : list R;
  randoms : list R
}.

Section Arrays.

(** The three buffers are [Float32Array]s: a number stored into one is
    rounded to the nearest binary32 value ([Math.fround]).  The rounding is
    not a function of real arithmetic that this development defines; the
    stores go through whatever function [fround] the engine applies. *)
Variable fround : R -> R.

(** One turn of the [useMemo] loop; particle [i] consumes five draws. *)
Definition fill (count : nat) (rand : nat -> R) (i : nat) (b : Buffers)
    : option Buffers :=
  scatter ← MathUtil.getScatterPosition 15 (later (5 * i) rand);
  tree ← MathUtil.getTreePosition 12 5 6 i count (later (5 * i + 3) rand);
  pScatter ←
    typed_set (positionsScatter b)
              [fround scatter.1.1; fround scatter.1.2; fround scatter.2] (i * 3);
  pTree ←
    typed_set (positionsTree b)
              [fround tree.1.1; fround tree.1.2; fround tree.2] (i * 3);
  Some {| positionsScatter := pScatter;
          positionsTree := pTree;
          randoms := <[i := fround (rand (5 * i + 4)%nat)]> (randoms b) |}.

Definition makeBuffers (count : nat) (rand : nat -> R) : option Buffers :=
  for_each (fill count rand) (seq 0 count)
    {| positionsScatter := replicate (count * 3) 0;
       positionsTree := replicate (count * 3) 0;
       randoms := replicate count 0 |}.

End Arrays.

(** GLSL [pow]: undefined for a negative base, and for a zero base with a
    non-positive exponent. *)
Definition pow (a b : R) : option R :=
  if Rlt_dec a 0 then None
  else if Req_dec_T a 0 then (if Rle_dec b 0 then None else Some 0)
  else Some (Rpower a b).

Inductive Fragment : Type :=
| discarded
| written (red green blue alpha : R).

(** [main] of the fragment shader, at point coordinate [(cx, cy)]. *)
Definition fragment (vAlpha : R) (vColor : Foliage.vec3) (cx cy : R)
    : option Fragment :=
  let coordx := cx - 0.5 in
  let coordy := cy - 0.5 in
  let r := R_sqrt.sqrt (coordx * coordx + coordy * coordy) in
  if Rlt_dec 0.5 r then Some discarded
  else
    let glow := 1.0 - r * 2.0 in
    glow ← pow glow 1.5;
    Some (written (Foliage.x vColor) (Foliage.y vColor) (Foliage.z vColor)
                  (vAlpha * glow)).

End FoliagePoints.

(** ** [components/StarTopper.tsx]: the rigid topper *)
Module StarTopper.

(** The transform of the group behind [groupRef] (taken as mounted). *)
Record Group : Type := {
  position : THREE.Vector3;
  rotation : THREE.Vector3;
  scale : THREE.Vector3
}.

(** [Vector3.lerpVectors] *)
Definition lerpVectors (v1 v2 : THREE.Vector3) (alpha : R) : THREE.Vector3 :=
  THREE.mkVector3 (THREE.x v1 + (THREE.x v2 - THREE.x v1) * alpha)
                  (THREE.y v1 + (THREE.y v2 - THREE.y v1) * alpha)
                  (THREE.z v1 + (THREE.z v2 - THREE.z v1) * alpha).

Definition posTree : THREE.Vector3 := THREE.mkVector3 0 6.8 0.

(** The positions of the [useMemo]: the scatter point takes three draws. *)
Definition makePositions (rand : nat -> R) : option (THREE.Vector3 * THREE.Vector3) :=
  scatter ← MathUtil.getScatterPosition 20 rand;
  Some (Vector3_of scatter, posTree).

(** easeInOutCubic; [Math.pow(a, 3)] is the cube. *)
Definition easeInOutCubic (progress : R) : R :=
  if Rlt_dec progress 0.5
  then 4 * progress * progress * progress
  else 1 - (-2 * progress + 2) ^ 3 / 2.

Definition useFrame (posScatter posTree : THREE.Vector3)
    (elapsedTime animationProgress : R) (g : Group) : Group :=
  let progress := animationProgress in
  let t := easeInOutCubic progress in
  let time := elapsedTime in
  let spinSpeed := THREE.MathUtils.lerp 2.0 0.5 t in
  let pulse := 1 + Math.sin (time * 2) * 0.05 in
  let baseScale := THREE.MathUtils.lerp 0.2 0.65 t in
  {| position := lerpVectors posScatter posTree t;
     rotation :=
       THREE.mkVector3 (THREE.x (rotation g))
                       (time * spinSpeed)
                       (Math.sin (time * 0.5) * 0.1 * (1 - t));
     scale :=
       THREE.mkVector3 (baseScale * pulse) (baseScale * pulse) (baseScale * pulse) |}.

End StarTopper.

(** ** [App.tsx] and [components/Overlay.tsx]: the formation toggle *)
Module App.

(** [useState<TreeState>(TreeState.SCATTERED)] *)
Definition initialTreeState : TreeState := SCATTERED.

(** The [onClick] of the button. *)
Definition onClick (treeState : TreeState) : TreeState :=
  match treeState with
  | SCATTERED => TREE_SHAPE
  | TREE_SHAPE => SCATTERED
  end.

(** [useRef(0)] of [SceneContent], with the group unrotated. *)
Definition initialScene : Experience.Scene :=
  {| Experience.animationProgress := 0; Experience.rotation_y := 0 |}.

End App.

(** ** Notions used to state the further properties *)

(** The two triangles of ribbon segment [i], as vertex numbers. *)
Definition segmentTriangles (i : nat) : list nat :=
  [(i * 2)%nat; (i * 2 + 1)%nat; (i * 2 + 2)%nat;
   (i * 2 + 1)%nat; (i * 2 + 3)%nat; (i * 2 + 2)%nat].

(** The texture coordinates of the two vertices at path index [i]. *)
Definition sampleUVs (segments i : nat) : list R :=
  [0; INR i / INR segments; 1; INR i / INR segments].

(** The three numbers of a position triple, in buffer order. *)
Definition triple_entries (p : triple) : list R := [p.1.1; p.1.2; p.2].

(** Scalar product of two three.js vectors. *)
Definition dot (a b : THREE.Vector3) : R :=
  THREE.x a * THREE.x b + THREE.y a * THREE.y b + THREE.z a * THREE.z b.

(** Every draw is a result [Math.random] can return. *)
Definition draws_ok (rand : nat -> R) : Prop :=
  forall k, 0 <= rand k < 1.

(** The transform of an item placed at [p] with its own rotation seed and
    scale and no spin. *)
Definition restingMatrix (item : PositionData) (p : triple) : list R :=
  THREE.compose (Vector3_of p)
                (THREE.setFromEuler (Vector3_of (rotation item)))
                (THREE.mkVector3 (scale item) (scale item) (scale item)).

(** * Properties *)

(** ** Progress controller *)
Section ProgressController.
Import Experience.

Lemma tick_unfold ts dt c :
  tick ts dt c =
  if Rlt_dec 0.001 (Rabs (targetProgress ts - c))
  then c + (targetProgress ts - c) * (2.0 * dt)
  else targetProgress ts.
Proof. reflexivity. Qed.

(** The progress of a frame does not depend on the group rotation. *)
Lemma useFrame_progress ts dt s :
  animationProgress (useFrame ts dt s) = tick ts dt (animationProgress s).
Proof. reflexivity. Qed.

Lemma run_progress ts dts : forall s,
  animationProgress (run ts dts s) = progress_after ts dts (animationProgress s).
Proof.
  unfold progress_after, run.
  induction dts as [|dt dts IH]; intros s; simpl; [reflexivity|].
  rewrite IH. symmetry. rewrite IH. reflexivity.
Qed.

Lemma progress_after_nil ts c : progress_after ts [] c = c.
Proof. reflexivity. Qed.

Lemma progress_after_cons ts dt dts c :
  progress_after ts (dt :: dts) c = progress_after ts dts (tick ts dt c).
Proof.
  unfold progress_after.
  change (run ts (dt :: dts) ?s) with (run ts dts (useFrame ts dt s)).
  rewrite run_progress. reflexivity.
Qed.

Lemma progress_after_snoc ts dts dt c :
  progress_after ts (dts ++ [dt]) c = tick ts dt (progress_after ts dts c).
Proof.
  revert c. induction dts as [|d dts IH]; intros c.
  - reflexivity.
  - simpl. rewrite !progress_after_cons. apply IH.
Qed.

(** One frame towards the tree: the gap to 1 shrinks by [1 - 2 dt], or is
    closed by the snap. *)
Lemma tick_tree_gap dt c :
  0 <= c <= 1 -> 0 < dt <= 1 / 2 ->
  0 <= 1 - tick TREE_SHAPE dt c <= (1 - 2 * dt) * (1 - c).
Proof.
  intros Hc Hdt. rewrite tick_unfold. simpl.
  destruct Rlt_dec as [Hgap | Hgap].
  - nra.
  - nra.
Qed.

Lemma tick_tree_rises dt c :
  0 <= c < 1 -> 0 < dt <= 1 / 2 ->
  c < tick TREE_SHAPE dt c <= 1.
Proof.
  intros Hc Hdt. rewrite tick_unfold. simpl.
  destruct Rlt_dec as [Hgap | Hgap].
  - rewrite Rabs_pos_eq in Hgap by lra. nra.
  - lra.
Qed.

Lemma tick_at_target ts dt : tick ts dt (targetProgress ts) = targetProgress ts.
Proof.
  rewrite tick_unfold. destruct Rlt_dec as [Hgap | Hgap]; [|reflexivity].
  exfalso. rewrite Rminus_diag, Rabs_R0 in Hgap. lra.
Qed.

Lemma tick_tree_snap dt c :
  0 <= c <= 1 -> 1 - c <= 0.001 -> tick TREE_SHAPE dt c = 1.
Proof.
  intros Hc Hgap. rewrite tick_unfold. simpl.
  destruct Rlt_dec as [H | H]; [|reflexivity].
  rewrite Rabs_pos_eq in H by lra. lra.
Qed.

Lemma tick_in_unit ts dt c :
  0 <= c <= 1 -> 0 < dt <= 1 / 2 -> 0 <= tick ts dt c <= 1.
Proof.
  intros Hc Hdt. rewrite tick_unfold.
  destruct ts; simpl; destruct Rlt_dec as [Hgap | Hgap]; nra.
Qed.

Lemma progress_after_in_unit ts dts : forall c,
  0 <= c <= 1 -> Forall (fun dt => 0 < dt <= 1 / 2) dts ->
  0 <= progress_after ts dts c <= 1.
Proof.
  induction dts as [|dt dts IH]; intros c Hc Hall.
  - rewrite progress_after_nil. exact Hc.
  - rewrite progress_after_cons. inversion Hall; subst.
    apply IH; [apply tick_in_unit|]; assumption.
Qed.

(** After [n] frames of at least [dmin] each, the gap is at most
    [(1 - 2 dmin)^n] times the initial one. *)
Lemma progress_after_gap dmin dts : forall c,
  0 <= c <= 1 -> 0 < dmin ->
  Forall (fun dt => dmin <= dt <= 1 / 2) dts ->
  0 <= 1 - progress_after TREE_SHAPE dts c
    <= (1 - 2 * dmin) ^ length dts * (1 - c).
Proof.
  induction dts as [|dt dts IH]; intros c Hc Hmin Hall.
  - rewrite progress_after_nil. simpl. lra.
  - rewrite progress_after_cons. inversion Hall as [|? ? Hdt Hrest]; subst.
    assert (Hg := tick_tree_gap dt c Hc ltac:(lra)).
    assert (Hu := tick_in_unit TREE_SHAPE dt c Hc ltac:(lra)).
    specialize (IH (tick TREE_SHAPE dt c) Hu Hmin Hrest).
    split; [lra|].
    eapply Rle_trans; [apply IH|]. simpl length. simpl pow.
    assert (Hp : 0 <= (1 - 2 * dmin) ^ length dts) by (apply pow_le; lra).
    assert (Hstep : 1 - tick TREE_SHAPE dt c <= (1 - 2 * dmin) * (1 - c)) by nra.
    apply (Rmult_le_compat_l _ _ _ Hp) in Hstep. lra.
Qed.

Lemma progress_after_stays dts : forall c,
  c = 1 -> progress_after TREE_SHAPE dts c = 1.
Proof.
  induction dts as [|dt dts IH]; intros c ->.
  - reflexivity.
  - rewrite progress_after_cons. apply IH.
    exact (tick_at_target TREE_SHAPE dt).
Qed.

End ProgressController.

Section ProgressControllerClaims.
Import Experience.

Lemma progress_after_app ts dts1 dts2 c :
  progress_after ts (dts1 ++ dts2) c
  = progress_after ts dts2 (progress_after ts dts1 c).
Proof.
  revert c. induction dts1 as [|d dts1 IH]; intros c; simpl.
  - reflexivity.
  - rewrite !progress_after_cons. apply IH.
Qed.

Lemma tick_scattered_falls dt c :
  0 < c <= 1 -> 0 < dt <= 1 / 2 ->
  0 <= tick SCATTERED dt c < c
  /\ c - tick SCATTERED dt c <= Rmax (2 * dt * c) 0.001.
Proof.
  intros Hc Hdt. rewrite tick_unfold. simpl.
  destruct Rlt_dec as [Hgap | Hgap].
  - replace (0 - c) with (- c) in Hgap by lra.
    rewrite Rabs_Ropp, Rabs_pos_eq in Hgap by lra.
    split; [nra|]. eapply Rle_trans; [|apply Rmax_l]. lra.
  - replace (0 - c) with (- c) in Hgap by lra.
    rewrite Rabs_Ropp, Rabs_pos_eq in Hgap by lra.
    split; [lra|]. eapply Rle_trans; [|apply Rmax_r]. lra.
Qed.

Lemma tick_tree_long_frame : tick TREE_SHAPE 1 0 = 2.
Proof.
  rewrite tick_unfold. simpl. destruct Rlt_dec as [H | H]; [lra|].
  exfalso. apply H. rewrite Rminus_0_r, Rabs_R1. lra.
Qed.

Example tick_tree_quarter_second : tick TREE_SHAPE 0.25 0 = 0.5.
Proof.
  rewrite tick_unfold. simpl. destruct Rlt_dec as [H | H]; [lra|].
  exfalso. apply H. rewrite Rminus_0_r, Rabs_R1. lra.
Qed.

(** Every lower bound on the frame deltas comes with a number of frames
    after which the gap is within the snap threshold. *)
Lemma damping_bound_exists dmin :
  0 < dmin <= 1 / 2 -> exists n, (1 - 2 * dmin) ^ n <= 0.001.
Proof.
  intros Hd.
  destruct (pow_lt_1_zero (1 - 2 * dmin)) with (y := 0.001) as [N HN].
  - rewrite Rabs_pos_eq by lra. lra.
  - lra.
  - exists N. specialize (HN N (Nat.le_refl N)).
    assert (Hle := Rle_abs ((1 - 2 * dmin) ^ N)). lra.
Qed.

(** C2, the claim as written fails: from [current = 0] with target 1, one
    frame of [delta = 1] puts [current] at 2, past the target. *)
Lemma progress_overshoots_on_long_frame :
  tick TREE_SHAPE 1 0 = 2
  /\ ~ (forall dt c, 0 < dt -> 0 <= c < 1 -> c < tick TREE_SHAPE dt c <= 1).
Proof.
  assert (Hval := tick_tree_long_frame).
  split; [exact Hval|].
  intros Hall. specialize (Hall 1 0 ltac:(lra) ltac:(lra)).
  rewrite Hval in Hall. lra.
Qed.

Lemma tick_scattered_exact dt c :
  0 <= c ->
  (0.001 < c -> tick SCATTERED dt c = c - 2 * dt * c)
  /\ (c <= 0.001 -> tick SCATTERED dt c = 0).
Proof.
  intros Hc. rewrite tick_unfold. simpl.
  replace (0 - c) with (- c) by lra.
  rewrite Rabs_Ropp, Rabs_pos_eq by lra.
  destruct Rlt_dec as [Hgap | Hgap]; split; intros H; lra.
Qed.

Lemma tick_tree_exact dt c :
  c <= 1 ->
  (0.001 < 1 - c -> tick TREE_SHAPE dt c = c + 2 * dt * (1 - c))
  /\ (1 - c <= 0.001 -> tick TREE_SHAPE dt c = 1).
Proof.
  intros Hc. rewrite tick_unfold. simpl.
  rewrite Rabs_pos_eq by lra.
  destruct Rlt_dec as [Hgap | Hgap]; split; intros H; lra.
Qed.

(** C2 (amended): with every frame delta in [[dmin, 1/2]], [dmin > 0],
    the progress started in [[0,1)] with target 1 strictly increases
    frame after frame while it is below 1, never exceeds 1, stays at 1
    once there, and is exactly 1 after any [n + 1] frames with
    [(1 - 2 dmin)^n <= 0.001]; a frame of delta [d] adds exactly
    [2 d (1 - current)] while the gap exceeds 0.001 and otherwise sets the
    progress to 1.  Retargeting to 0 leaves the progress as it is (the
    target is a prop, not part of the state); the next frame, of delta
    [dt <= 1/2], moves a positive progress strictly down, not below 0: by
    exactly [2 dt current] while the progress exceeds 0.001, and otherwise
    by the snap to 0, a step of at most 0.001. *)
Theorem progress_rises_to_one_and_reverses
    (dmin c dt : R) (dts : list R) (n : nat)
    (Hc : 0 <= c < 1) (Hmin : 0 < dmin)
    (Hdts : Forall (fun d => dmin <= d <= 1 / 2) dts)
    (Hn : (1 - 2 * dmin) ^ n <= 0.001) (Hlen : (n < length dts)%nat)
    (Hdt : 0 < dt <= 1 / 2) :
  (forall k, (k < length dts)%nat ->
     let before := progress_after TREE_SHAPE (take k dts) c in
     let after := progress_after TREE_SHAPE (take (S k) dts) c in
     (before < 1 -> before < after <= 1) /\ (before = 1 -> after = 1))
  /\ progress_after TREE_SHAPE dts c = 1
  /\ (forall k,
        let mid := progress_after TREE_SHAPE (take k dts) c in
        0 < mid ->
        0 <= tick SCATTERED dt mid < mid
        /\ mid - tick SCATTERED dt mid <= Rmax (2 * dt * mid) 0.001)
  /\ (forall k,
        let mid := progress_after TREE_SHAPE (take k dts) c in
        (0.001 < mid -> tick SCATTERED dt mid = mid - 2 * dt * mid)
        /\ (mid <= 0.001 -> tick SCATTERED dt mid = 0))
  /\ (forall k d, dts !! k = Some d ->
        let before := progress_after TREE_SHAPE (take k dts) c in
        let after := progress_after TREE_SHAPE (take (S k) dts) c in
        (0.001 < 1 - before -> after = before + 2 * d * (1 - before))
        /\ (1 - before <= 0.001 -> after = 1)).
Proof.
  assert (Hpos : Forall (fun d => 0 < d <= 1 / 2) dts).
  { eapply Forall_impl; [exact Hdts|]. simpl. intros d Hd. lra. }
  assert (Hunit : forall k, 0 <= progress_after TREE_SHAPE (take k dts) c <= 1).
  { intros k. apply progress_after_in_unit; [lra|]. by apply Forall_take. }
  split; [|split; [|split; [|split]]].
  - intros k Hk before after.
    destruct (lookup_lt_is_Some_2 dts k Hk) as [d Hd].
    assert (Hdpos : 0 < d <= 1 / 2).
    { rewrite Forall_lookup in Hpos. exact (Hpos k d Hd). }
    subst before after. rewrite (take_S_r dts k d Hd), progress_after_snoc.
    split.
    + intros Hlt. apply tick_tree_rises; [|exact Hdpos].
      specialize (Hunit k). lra.
    + intros ->. exact (tick_at_target TREE_SHAPE d).
  - rewrite <- (take_drop (S n) dts), progress_after_app.
    apply progress_after_stays.
    destruct (lookup_lt_is_Some_2 dts n Hlen) as [d Hd].
    rewrite (take_S_r dts n d Hd), progress_after_snoc.
    apply tick_tree_snap; [apply Hunit|].
    assert (Hgap := progress_after_gap dmin (take n dts) c ltac:(lra) Hmin
                      ltac:(by apply Forall_take)).
    rewrite length_take, Nat.min_l in Hgap by lia.
    assert (Hp : 0 <= (1 - 2 * dmin) ^ n).
    { apply pow_le. rewrite Forall_lookup in Hdts.
      specialize (Hdts n d Hd). simpl in Hdts. lra. }
    nra.
  - intros k mid Hmid. apply tick_scattered_falls; [|exact Hdt].
    specialize (Hunit k). subst mid. lra.
  - intros k mid. apply tick_scattered_exact.
    specialize (Hunit k). subst mid. lra.
  - intros k d Hd before after. subst before after.
    rewrite (take_S_r dts k d Hd), progress_after_snoc.
    apply tick_tree_exact. specialize (Hunit k). lra.
Qed.

Lemma progress_rises_to_one_and_reverses_witness :
  progress_after TREE_SHAPE (replicate 11 (1 / 4)) 0 = 1.
Proof.
  refine (proj1 (proj2
    (progress_rises_to_one_and_reverses (1 / 4) 0 (1 / 4)
       (replicate 11 (1 / 4)) 10 _ _ _ _ _ _))).
  - lra.
  - lra.
  - simpl. repeat (constructor; [lra|]). constructor.
  - simpl. lra.
  - simpl. lia.
  - lra.
Defined.

(** C3, the claim as written fails: [current = 0] is in [[0,1]], and one
    frame of [delta = 1] towards the tree leaves it at 2. *)
Lemma progress_leaves_unit_interval_on_long_frame :
  let s := {| animationProgress := 0; rotation_y := 0 |} in
  0 <= animationProgress s <= 1
  /\ animationProgress (useFrame TREE_SHAPE 1 s) = 2
  /\ ~ (0 <= animationProgress (useFrame TREE_SHAPE 1 s) <= 1).
Proof.
  intros s. assert (Hval := tick_tree_long_frame).
  change (animationProgress (useFrame TREE_SHAPE 1 s))
    with (tick TREE_SHAPE 1 0).
  rewrite Hval. simpl. repeat split; lra.
Qed.

(** C3 (amended): for every frame delta with [0 < delta <= 1/2] and either
    target, a progress in [[0,1]] before the frame is in [[0,1]] after
    it. *)
Theorem progress_stays_in_unit_interval
    (treeState : TreeState) (delta : R) (s : Scene)
    (Hs : 0 <= animationProgress s <= 1) (Hdelta : 0 < delta <= 1 / 2) :
  0 <= animationProgress (useFrame treeState delta s) <= 1.
Proof.
  rewrite useFrame_progress. apply tick_in_unit; assumption.
Qed.

Lemma progress_stays_in_unit_interval_witness :
  0 <= animationProgress
         (useFrame SCATTERED (1 / 60)
            {| animationProgress := 1; rotation_y := 0 |}) <= 1.
Proof.
  apply progress_stays_in_unit_interval; simpl; lra.
Defined.

End ProgressControllerClaims.

(** ** Partial arithmetic succeeds inside its domain *)
Section PartialArithmetic.

Lemma fdiv_Some a b : b <> 0 -> fdiv a b = Some (a / b).
Proof. intros Hb. unfold fdiv. destruct Req_dec_T; [contradiction|reflexivity]. Qed.

Lemma fdiv_zero a : fdiv a 0 = None.
Proof. unfold fdiv. destruct Req_dec_T; [reflexivity|contradiction]. Qed.

Lemma Math_sqrt_Some a : 0 <= a -> Math.sqrt a = Some (R_sqrt.sqrt a).
Proof. intros Ha. unfold Math.sqrt. destruct Rlt_dec; [lra|reflexivity]. Qed.

Lemma Math_acos_Some a : -1 <= a <= 1 -> Math.acos a = Some (Ratan.acos a).
Proof.
  intros Ha. unfold Math.acos.
  destruct Rlt_dec; [lra|]. destruct Rlt_dec; [lra|reflexivity].
Qed.

Lemma num_or_nonzero a b : b <> 0 -> num_or a b <> 0.
Proof. intros Hb. unfold num_or. destruct Req_dec_T; assumption. Qed.

(** [Math.cbrt] is the cube root. *)
Lemma Math_cbrt_cube a : Math.cbrt a ^ 3 = a.
Proof.
  assert (Hpos : forall b, 0 < b -> Rpower b (/ 3) ^ 3 = b).
  { intros b Hb. rewrite <- Rpower_pow by apply exp_pos.
    rewrite Rpower_mult. replace (/ 3 * INR 3) with 1 by (simpl; lra).
    apply Rpower_1, Hb. }
  unfold Math.cbrt. destruct (total_order_T a 0) as [[Hneg | Hzero] | Hgt].
  - specialize (Hpos (- a) ltac:(lra)).
    replace ((- Rpower (- a) (/ 3)) ^ 3) with (- (Rpower (- a) (/ 3) ^ 3)) by ring.
    lra.
  - subst. ring.
  - apply Hpos, Hgt.
Qed.

Lemma Math_cbrt_unit a : 0 <= a < 1 -> 0 <= Math.cbrt a < 1.
Proof.
  intros Ha. unfold Math.cbrt.
  destruct (total_order_T a 0) as [[Hneg | Hzero] | Hgt]; [lra|lra|].
  unfold Rpower. split; [left; apply exp_pos|].
  rewrite <- exp_0. apply exp_increasing.
  assert (Hln : ln a < 0) by (rewrite <- ln_1; apply ln_increasing; lra).
  lra.
Qed.

End PartialArithmetic.

(** ** Samplers *)
Section Samplers.
Import MathUtil.

Lemma norm_spherical r theta phi : 0 <= r -> norm (spherical r theta phi) = r.
Proof.
  intros Hr. unfold norm, spherical, Math.sin, Math.cos. simpl.
  assert (Ht := sin2_cos2 theta). assert (Hp := sin2_cos2 phi).
  unfold Rsqr in Ht, Hp.
  replace (r * sin phi * cos theta * (r * sin phi * cos theta)
           + r * sin phi * sin theta * (r * sin phi * sin theta)
           + r * cos phi * (r * cos phi))
    with (r * r * (sin phi * sin phi * (sin theta * sin theta + cos theta * cos theta)
                   + cos phi * cos phi)) by ring.
  rewrite Ht, Rmult_1_r, Hp, Rmult_1_r. apply sqrt_square, Hr.
Qed.

(** C8: for every radius [R > 0] and every three draws in [[0,1)], the
    scatter sampler returns the point at distance [r = R cbrt(w)] from the
    origin in the direction of [theta = 2 pi u] and [phi = acos(2 v - 1)],
    [u], [v], [w] being the first, second and third draw; its Euclidean
    length is [r], which is at most [R]. *)
Theorem scatter_sample_within_radius (radius : R) (rand : nat -> R)
    (Hradius : 0 < radius)
    (Hu : 0 <= rand 0%nat < 1) (Hv : 0 <= rand 1%nat < 1)
    (Hw : 0 <= rand 2%nat < 1) :
  let r := radius * Math.cbrt (rand 2%nat) in
  let theta := 2 * Math.PI * rand 0%nat in
  let phi := Ratan.acos (2 * rand 1%nat - 1) in
  getScatterPosition radius rand = Some (spherical r theta phi)
  /\ norm (spherical r theta phi) = r
  /\ norm (spherical r theta phi) <= radius.
Proof.
  intros r theta phi.
  assert (Hc := Math_cbrt_unit _ Hw).
  assert (Hr : 0 <= r) by (unfold r; nra).
  split; [|split].
  - unfold getScatterPosition.
    rewrite Math_acos_Some by lra. simpl. unfold spherical.
    fold theta phi. replace (Math.cbrt (rand 2%nat) * radius) with r
      by (unfold r; ring).
    reflexivity.
  - apply norm_spherical, Hr.
  - rewrite norm_spherical by exact Hr. unfold r. nra.
Qed.

Lemma scatter_sample_within_radius_witness :
  norm (spherical (15 * Math.cbrt 0) (2 * Math.PI * 0) (Ratan.acos (2 * 0 - 1)))
  <= 15.
Proof.
  refine (proj2 (proj2
    (scatter_sample_within_radius 15 (fun _ => 0) _ _ _ _))); lra.
Defined.

Lemma getTreePosition_Some height baseRadius yOffset index total rand :
  height <> 0 -> total <> 0%nat -> 0 <= rand 0%nat ->
  getTreePosition height baseRadius yOffset index total rand
  = Some (polar ((1 - INR index / INR total) * baseRadius
                 * R_sqrt.sqrt (rand 0%nat))
                (INR index * goldenAngle)
                (INR index / INR total * height - yOffset)).
Proof.
  intros Hheight Htotal Hrand.
  assert (Hnz : INR total <> 0) by (apply not_0_INR; exact Htotal).
  unfold getTreePosition.
  rewrite (Math_sqrt_Some 5) by lra. cbn [mbind option_bind].
  rewrite fdiv_Some by exact Hnz. cbn [mbind option_bind].
  rewrite fdiv_Some by exact Hheight. cbn [mbind option_bind].
  rewrite Math_sqrt_Some by exact Hrand. cbn [mbind option_bind].
  unfold polar, goldenAngle.
  replace (INR index / INR total * height / height) with (INR index / INR total)
    by (field; split; assumption).
  reflexivity.
Qed.

Lemma index_fraction index total :
  (index < total)%nat -> 0 <= INR index / INR total < 1.
Proof.
  intros Hlt. assert (Htotal : 0 < INR total) by (apply lt_0_INR; lia).
  apply lt_INR in Hlt. assert (H0 := pos_INR index).
  split.
  - apply Rmult_le_pos; [exact H0|]. left. apply Rinv_0_lt_compat, Htotal.
  - apply (Rmult_lt_reg_r (INR total)); [exact Htotal|].
    unfold Rdiv. rewrite Rmult_assoc, Rinv_l by lra. lra.
Qed.

Lemma polar_axis_distance r theta h :
  0 <= r ->
  R_sqrt.sqrt ((polar r theta h).1.1 * (polar r theta h).1.1
               + (polar r theta h).2 * (polar r theta h).2) = r.
Proof.
  intros Hr. unfold polar, Math.cos, Math.sin. cbn [fst snd].
  assert (Ht := sin2_cos2 theta). unfold Rsqr in Ht.
  replace (r * cos theta * (r * cos theta) + r * sin theta * (r * sin theta))
    with (r * r * (sin theta * sin theta + cos theta * cos theta)) by ring.
  rewrite Ht, Rmult_1_r. apply sqrt_square, Hr.
Qed.

(** C9: for [height > 0] and indices [i <= j < total], the tree sampler
    returns, whatever the draws [w] in [[0,1)], the points
    [(r cos theta, y, r sin theta)] with [y = index/total * height - yOffset]
    (nothing but index, total, height and yOffset enters it),
    [theta = index * goldenAngle] and [r = (1 - index/total) baseRadius
    sqrt w].  The heights are non-decreasing in the index.  For
    [baseRadius >= 0] the point lies at distance [r] from the axis, and [r]
    is positive for [baseRadius > 0] and a non-zero draw.  For consecutive
    indices the horizontal direction of the second point is that of the
    first turned by the golden angle [pi (3 - sqrt 5)]: with [(x, z)],
    [(x', z')] the horizontal coordinates and [r], [r'] the distances,
    [r x' = r' (x cos g - z sin g)] and [r z' = r' (x sin g + z cos g)]. *)
Theorem tree_sample_rises_along_golden_spiral
    (height baseRadius yOffset : R) (total i j : nat)
    (rand_i rand_j : nat -> R)
    (Hheight : 0 < height) (Hij : (i <= j)%nat) (Hj : (j < total)%nat)
    (Hrand_i : 0 <= rand_i 0%nat < 1) (Hrand_j : 0 <= rand_j 0%nat < 1) :
  let h (index : nat) := INR index / INR total * height - yOffset in
  let theta (index : nat) := INR index * goldenAngle in
  let r (index : nat) (w : R) :=
    (1 - INR index / INR total) * baseRadius * R_sqrt.sqrt w in
  exists p_i p_j : triple,
    getTreePosition height baseRadius yOffset i total rand_i = Some p_i
    /\ getTreePosition height baseRadius yOffset j total rand_j = Some p_j
    /\ p_i = polar (r i (rand_i 0%nat)) (theta i) (h i)
    /\ p_j = polar (r j (rand_j 0%nat)) (theta j) (h j)
    /\ p_i.1.2 = h i /\ p_j.1.2 = h j
    /\ p_i.1.2 <= p_j.1.2
    /\ (0 <= baseRadius ->
        R_sqrt.sqrt (p_i.1.1 * p_i.1.1 + p_i.2 * p_i.2) = r i (rand_i 0%nat)
        /\ R_sqrt.sqrt (p_j.1.1 * p_j.1.1 + p_j.2 * p_j.2)
           = r j (rand_j 0%nat))
    /\ (0 < baseRadius -> 0 < rand_i 0%nat -> 0 < r i (rand_i 0%nat))
    /\ (0 < baseRadius -> 0 < rand_j 0%nat -> 0 < r j (rand_j 0%nat))
    /\ (j = S i ->
        theta j - theta i = goldenAngle
        /\ r i (rand_i 0%nat) * p_j.1.1
           = r j (rand_j 0%nat)
             * (p_i.1.1 * cos goldenAngle - p_i.2 * sin goldenAngle)
        /\ r i (rand_i 0%nat) * p_j.2
           = r j (rand_j 0%nat)
             * (p_i.1.1 * sin goldenAngle + p_i.2 * cos goldenAngle)).
Proof.
  intros h theta r.
  assert (Hi : (i < total)%nat) by lia.
  assert (Hfi := index_fraction i total Hi).
  assert (Hfj := index_fraction j total Hj).
  assert (Htotal : 0 < INR total) by (apply lt_0_INR; lia).
  assert (Hradius : forall index w,
    0 <= INR index / INR total < 1 -> 0 <= w ->
    (0 <= baseRadius -> 0 <= r index w)
    /\ (0 < baseRadius -> 0 < w -> 0 < r index w)).
  { intros index w Hf Hw. unfold r. split.
    - intros Hb. apply Rmult_le_pos; [|apply sqrt_pos].
      apply Rmult_le_pos; lra.
    - intros Hb Hpos. apply Rmult_lt_0_compat; [|apply sqrt_lt_R0, Hpos].
      apply Rmult_lt_0_compat; lra. }
  exists (polar (r i (rand_i 0%nat)) (theta i) (h i)),
         (polar (r j (rand_j 0%nat)) (theta j) (h j)).
  split; [apply getTreePosition_Some; [lra|lia|lra]|].
  split; [apply getTreePosition_Some; [lra|lia|lra]|].
  split; [reflexivity|]. split; [reflexivity|].
  split; [reflexivity|]. split; [reflexivity|].
  split.
  { unfold polar. cbn [fst snd]. unfold h. apply le_INR in Hij.
    assert (Hinv : 0 < / INR total) by (apply Rinv_0_lt_compat, Htotal).
    assert (Hfrac : INR i * / INR total <= INR j * / INR total).
    { apply Rmult_le_compat_r; lra. }
    unfold Rdiv. apply (Rmult_le_compat_r height) in Hfrac; lra. }
  split.
  { intros Hb. split; apply polar_axis_distance.
    - apply (Hradius i); [exact Hfi|lra|exact Hb].
    - apply (Hradius j); [exact Hfj|lra|exact Hb]. }
  split; [intros Hb Hw; apply (Hradius i); [exact Hfi|lra|exact Hb|exact Hw]|].
  split; [intros Hb Hw; apply (Hradius j); [exact Hfj|lra|exact Hb|exact Hw]|].
  intros ->.
  assert (Hstep : theta (S i) = theta i + goldenAngle).
  { unfold theta. rewrite S_INR. ring. }
  split; [lra|].
  unfold polar, Math.cos, Math.sin. cbn [fst snd].
  rewrite Hstep, cos_plus, sin_plus. split; ring.
Qed.

Lemma tree_sample_rises_along_golden_spiral_witness :
  exists p_i p_j : triple,
    getTreePosition 12 5 6 0 2 (fun _ => 1 / 4) = Some p_i
    /\ getTreePosition 12 5 6 1 2 (fun _ => 1 / 4) = Some p_j
    /\ p_i.1.2 <= p_j.1.2
    /\ 0 < (1 - INR 0 / INR 2) * 5 * R_sqrt.sqrt (1 / 4)
    /\ 0 < (1 - INR 1 / INR 2) * 5 * R_sqrt.sqrt (1 / 4).
Proof.
  destruct (tree_sample_rises_along_golden_spiral 12 5 6 2 0 1
              (fun _ => 1 / 4) (fun _ => 1 / 4)
              ltac:(lra) ltac:(lia) ltac:(lia) ltac:(lra) ltac:(lra))
    as (p_i & p_j & Hi & Hj & _ & _ & _ & _ & Hle & _ & Hri & Hrj & _).
  exists p_i, p_j.
  split; [exact Hi|]. split; [exact Hj|]. split; [exact Hle|].
  split; [apply Hri; lra | apply Hrj; lra].
Defined.

End Samplers.

(** ** Particle field *)
Section ParticleField.
Import Foliage.




End ParticleField.

(** ** Loops *)
Section Loops.

(** A loop over [start, start + len) that keeps an invariant completes. *)
Lemma for_each_invariant {St : Type} (P : nat -> St -> Prop)
    (body : nat -> St -> option St) (len : nat) : forall (start : nat) (s : St),
  P start s ->
  (forall i st, (start <= i < start + len)%nat -> P i st ->
     exists st', body i st = Some st' /\ P (S i) st') ->
  exists s', for_each body (seq start len) s = Some s' /\ P (start + len)%nat s'.
Proof.
  induction len as [|len IH]; intros start s Hstart Hbody.
  - exists s. rewrite Nat.add_0_r. split; [reflexivity|exact Hstart].
  - destruct (Hbody start s ltac:(lia) Hstart) as (s1 & Hs1 & HP1).
    destruct (IH (S start) s1 HP1) as (s' & Hs' & HP').
    { intros i st Hi. apply Hbody. lia. }
    exists s'. simpl. rewrite Hs1. simpl. split; [exact Hs'|].
    replace (start + S len)%nat with (S start + len)%nat by lia. exact HP'.
Qed.

(** What a completed loop over [start, start + len) establishes, when each
    turn that completes carries the invariant on. *)
Lemma for_each_preserves {St : Type} (P : nat -> St -> Prop)
    (body : nat -> St -> option St) (len : nat) : forall (start : nat) (s s' : St),
  P start s ->
  (forall i st st', (start <= i < start + len)%nat -> P i st ->
     body i st = Some st' -> P (S i) st') ->
  for_each body (seq start len) s = Some s' ->
  P (start + len)%nat s'.
Proof.
  induction len as [|len IH]; intros start s s' Hstart Hbody Hrun.
  - injection Hrun as <-. rewrite Nat.add_0_r. exact Hstart.
  - cbn [seq for_each] in Hrun.
    destruct (body start s) as [s1|] eqn:Hs1; [|discriminate].
    cbn [mbind option_bind] in Hrun.
    replace (start + S len)%nat with (S start + len)%nat by lia.
    apply (IH (S start) s1 s'); [|intros i st st' Hi; apply Hbody; lia|exact Hrun].
    apply (Hbody start s s1); [lia|exact Hstart|exact Hs1].
Qed.

(** Six consecutive writes replace the six numbers at the offset. *)
Lemma write_six (done rest : list R) (a b c d e f a' b' c' d' e' f' : R) n :
  length done = n ->
  <[(n + 5)%nat := f']> (<[(n + 4)%nat := e']> (<[(n + 3)%nat := d']>
    (<[(n + 2)%nat := c']> (<[(n + 1)%nat := b']> (<[(n + 0)%nat := a']>
      (done ++ a :: b :: c :: d :: e :: f :: rest))))))
  = (done ++ [a'; b'; c'; d'; e'; f']) ++ rest.
Proof.
  intros <-. rewrite <- app_assoc.
  rewrite !insert_app_r. reflexivity.
Qed.

End Loops.

(** ** three.js vectors *)
Section Vectors.
Import THREE.

Lemma length_Some v :
  length v = Some (R_sqrt.sqrt (x v * x v + y v * y v + z v * z v)).
Proof. unfold length. apply Math_sqrt_Some. nra. Qed.

(** [normalize] never divides by zero: the divisor is [length || 1]. *)
Lemma normalize_Some v :
  normalize v
  = Some (multiplyScalar v
            (1 / num_or (R_sqrt.sqrt (x v * x v + y v * y v + z v * z v)) 1)).
Proof.
  unfold normalize. rewrite length_Some. simpl.
  unfold divideScalar. rewrite fdiv_Some; [reflexivity|].
  apply num_or_nonzero. lra.
Qed.

(** A zero vector is left as it is. *)
Lemma normalize_zero : normalize (mkVector3 0 0 0) = Some (mkVector3 0 0 0).
Proof.
  rewrite normalize_Some. unfold multiplyScalar. simpl.
  f_equal. f_equal; ring.
Qed.

Lemma applyAxisAngle_zero axis angle :
  applyAxisAngle (mkVector3 0 0 0) axis angle = mkVector3 0 0 0.
Proof.
  unfold applyAxisAngle, applyQuaternion. simpl. f_equal; ring.
Qed.

Lemma multiplyScalar_zero s :
  multiplyScalar (mkVector3 0 0 0) s = mkVector3 0 0 0.
Proof. unfold multiplyScalar. simpl. f_equal; ring. Qed.

Lemma cross_up_up :
  crossVectors (mkVector3 0 1 0) (mkVector3 0 1 0) = mkVector3 0 0 0.
Proof. unfold crossVectors. simpl. f_equal; ring. Qed.

Lemma length_zero : length (mkVector3 0 0 0) = Some 0.
Proof.
  rewrite length_Some. simpl. f_equal.
  replace (0 * 0 + 0 * 0 + 0 * 0) with 0 by ring. apply sqrt_0.
Qed.

End Vectors.

(** ** Ribbon strip builder *)
Section RibbonFacts.
Import THREE Ribbons.

Variable vertexNormals : list R -> option (list nat) -> list R.
Variable props : RibbonProps.
Variable paths : Paths.
Hypothesis Hpaths : paths_ok props paths.

Lemma center_Some t time i :
  (i <= segments props)%nat -> is_Some (center props paths t time i).
Proof using Hpaths.
  intros Hi. destruct Hpaths as [Htree Hscatter]. unfold center.
  destruct (lookup_lt_is_Some_2 (scatterPath paths) i ltac:(lia)) as [ps ->].
  destruct (lookup_lt_is_Some_2 (treePath paths) i ltac:(lia)) as [pt ->].
  simpl. eauto.
Qed.

Lemma difference_Some t time i :
  (i <= segments props)%nat -> is_Some (difference props paths t time i).
Proof using Hpaths.
  intros Hi. unfold difference.
  destruct (center_Some t time i Hi) as [c ->]. simpl.
  destruct (center_Some t time (Nat.min (i + 1) (segments props)) ltac:(lia))
    as [n ->].
  simpl. eauto.
Qed.

Lemma tangent_at_Some t time i :
  (i <= segments props)%nat -> is_Some (tangent_at props paths t time i).
Proof using Hpaths.
  intros Hi. unfold tangent_at.
  destruct (difference_Some t time i Hi) as [d ->]. simpl.
  destruct (i =? segments props)%nat; [eauto|].
  rewrite normalize_Some. eauto.
Qed.

Lemma normal_at_Some t time i :
  (i <= segments props)%nat -> is_Some (normal_at props paths t time i).
Proof using Hpaths.
  intros Hi. unfold normal_at.
  destruct (tangent_at_Some t time i Hi) as [tg ->]. simpl.
  rewrite normalize_Some. simpl. destruct Req_dec_T; eauto.
Qed.

Lemma stripEntries_length t time i :
  (i <= segments props)%nat ->
  List.length (stripEntries props paths t time i) = 6%nat.
Proof using Hpaths.
  intros Hi. unfold stripEntries.
  destruct (center_Some t time i Hi) as [c ->].
  destruct (normal_at_Some t time i Hi) as [n ->]. reflexivity.
Qed.

Lemma stripPrefix_S t time k :
  stripPrefix props paths t time (S k)
  = stripPrefix props paths t time k ++ stripEntries props paths t time k.
Proof.
  unfold stripPrefix. rewrite seq_S, flat_map_app. simpl.
  rewrite app_nil_r. reflexivity.
Qed.

Lemma stripPrefix_length t time k :
  (k <= S (segments props))%nat ->
  List.length (stripPrefix props paths t time k) = (6 * k)%nat.
Proof using Hpaths.
  induction k as [|k IH]; intros Hk; [reflexivity|].
  rewrite stripPrefix_S, length_app, IH, stripEntries_length by lia. lia.
Qed.

(** One turn of the loop overwrites the six numbers of its path index and
    nothing else, whatever the scratch vectors held. *)
Lemma step_writes t time i (posAttr : BufferAttribute) (scratch : Scratch)
    (done rest : list R) :
  (i <= segments props)%nat ->
  itemSize posAttr = 3%nat ->
  array posAttr = done ++ rest ->
  List.length done = (6 * i)%nat ->
  (6 <= List.length rest)%nat ->
  exists posAttr' scratch',
    step props paths t time i (posAttr, scratch) = Some (posAttr', scratch')
    /\ itemSize posAttr' = 3%nat
    /\ array posAttr'
       = (done ++ stripEntries props paths t time i) ++ drop 6 rest.
Proof using Hpaths.
  intros Hi Hsize Harr Hdone Hrest.
  unfold step, stripEntries.
  destruct (center_Some t time i Hi) as [c ->].
  destruct (tangent_at_Some t time i Hi) as [tg ->].
  destruct (normal_at_Some t time i Hi) as [n ->].
  simpl. eexists _, _. split; [reflexivity|]. split; [exact Hsize|].
  unfold setXYZ. simpl. rewrite Hsize, Harr.
  destruct rest as [|a [|b [|c0 [|d [|e [|f rest]]]]]]; simpl in Hrest; try lia.
  replace (i * 2 * 3 + 0)%nat with (6 * i + 0)%nat by lia.
  replace (i * 2 * 3 + 1)%nat with (6 * i + 1)%nat by lia.
  replace (i * 2 * 3 + 2)%nat with (6 * i + 2)%nat by lia.
  replace ((i * 2 + 1) * 3 + 0)%nat with (6 * i + 3)%nat by lia.
  replace ((i * 2 + 1) * 3 + 1)%nat with (6 * i + 4)%nat by lia.
  replace ((i * 2 + 1) * 3 + 2)%nat with (6 * i + 5)%nat by lia.
  rewrite (write_six done rest) by exact Hdone. reflexivity.
Qed.

(** The frame callback completes, and the position array it leaves is
    determined by the props, the paths, the time and the progress alone. *)
Lemma useFrame_result time progress geo :
  position_ok props geo ->
  useFrame vertexNormals props paths time progress geo
  = Some {| position :=
              Some (mkBufferAttribute
                      (stripPrefix props paths (easing progress) time (S (segments props))) 3);
            uv := uv geo;
            index := index geo;
            normal :=
              Some (vertexNormals
                      (stripPrefix props paths (easing progress) time (S (segments props)))
                      (index geo)) |}.
Proof using Hpaths.
  intros (posAttr & Hpos & Hsize & Hlen).
  unfold useFrame. rewrite Hpos. cbn -[for_each seq].
  set (t := easing progress).
  set (scratch0 := {| tangent := mkVector3 0 0 0; normal_ := mkVector3 0 0 0;
                      sideOffset := mkVector3 0 0 0 |}).
  destruct (for_each_invariant
    (fun k (st : BufferAttribute * Scratch) =>
       itemSize st.1 = 3%nat
       /\ array st.1 = stripPrefix props paths t time k ++ drop (6 * k) (array posAttr))
    (step props paths t time) (S (segments props)) 0 (posAttr, scratch0))
    as (final & Hfinal & Hsize' & Harr').
  { split; [exact Hsize|]. simpl. rewrite drop_0. reflexivity. }
  { intros i [attr scr] Hi [Hs Ha]. simpl in Hs, Ha.
    destruct (step_writes t time i attr scr (stripPrefix props paths t time i)
                (drop (6 * i) (array posAttr))) as (attr' & scr' & Hstep & Hs' & Ha').
    - lia.
    - exact Hs.
    - exact Ha.
    - apply stripPrefix_length. lia.
    - rewrite length_drop. lia.
    - exists (attr', scr'). split; [exact Hstep|]. simpl. split; [exact Hs'|].
      rewrite Ha', stripPrefix_S, drop_drop. do 2 f_equal. lia. }
  rewrite Hfinal. cbn -[seq]. cbn -[seq] in Hsize', Harr'.
  rewrite drop_ge, app_nil_r in Harr' by lia.
  destruct final as [[arr size] scr]. simpl in *. subst. reflexivity.
Qed.

End RibbonFacts.

Section RibbonClaims.
Import THREE Ribbons.

(** The paths [useMemo] builds have one sample per path index. *)
Lemma makePaths_ok getPoint props rand paths :
  makePaths getPoint props rand = Some paths -> paths_ok props paths.
Proof.
  unfold makePaths. intros Hmake.
  match type of Hmake with
  | ?loop ≫= _ = _ => destruct loop as [tree|] eqn:Htree; [|discriminate]
  end.
  cbn [mbind option_bind] in Hmake.
  match type of Hmake with
  | ?loop ≫= _ = _ => destruct loop as [control|] eqn:Hcontrol; [|discriminate]
  end.
  cbn [mbind option_bind] in Hmake.
  match type of Hmake with
  | ?loop ≫= _ = _ => destruct loop as [scatter|] eqn:Hscatter; [|discriminate]
  end.
  cbn [mbind option_bind] in Hmake. injection Hmake as <-.
  split; cbn [treePath scatterPath].
  - apply (for_each_preserves (fun k (acc : list Vector3) => List.length acc = k)
             _ _ 0 [] tree eq_refl) in Htree; [exact Htree|].
    intros i st st' _ Hlen Hstep.
    destruct (treePoint props i); [|discriminate].
    cbn [mbind option_bind] in Hstep.
    injection Hstep as <-. rewrite length_app, Hlen. simpl. lia.
  - apply (for_each_preserves (fun k (acc : list Vector3) => List.length acc = k)
             _ _ 0 [] scatter eq_refl) in Hscatter; [exact Hscatter|].
    intros i st st' _ Hlen Hstep.
    destruct (fdiv (INR i) (INR (segments props))); [|discriminate].
    cbn [mbind option_bind] in Hstep.
    injection Hstep as <-. rewrite length_app, Hlen. simpl. lia.
Qed.

Lemma tangent_at_last props paths t time :
  paths_ok props paths ->
  tangent_at props paths t time (segments props) = Some (mkVector3 0 1 0).
Proof.
  intros Hpaths. unfold tangent_at.
  destruct (difference_Some props paths Hpaths t time (segments props) ltac:(lia))
    as [d ->].
  simpl. rewrite Nat.eqb_refl. reflexivity.
Qed.

(** A tangent parallel to the up reference leaves a zero side vector. *)
Lemma normal_at_degenerate props paths t time i tg :
  tangent_at props paths t time i = Some tg ->
  crossVectors tg binormal = mkVector3 0 0 0 ->
  normal_at props paths t time i = Some (mkVector3 0 0 0).
Proof.
  intros Htg Hcross. unfold normal_at. rewrite Htg. simpl.
  rewrite Hcross, normalize_zero. simpl.
  destruct Req_dec_T; [reflexivity|]. rewrite applyAxisAngle_zero. reflexivity.
Qed.

Lemma normal_at_last props paths t time :
  paths_ok props paths ->
  normal_at props paths t time (segments props) = Some (mkVector3 0 0 0).
Proof.
  intros Hpaths.
  apply (normal_at_degenerate _ _ _ _ _ (mkVector3 0 1 0)).
  - apply tangent_at_last, Hpaths.
  - apply cross_up_up.
Qed.

Lemma tangent_at_degenerate props paths t time i :
  (i < segments props)%nat ->
  difference props paths t time i = Some (mkVector3 0 0 0) ->
  tangent_at props paths t time i = Some (mkVector3 0 0 0).
Proof.
  intros Hi Hd. unfold tangent_at. rewrite Hd. simpl.
  destruct (Nat.eqb_spec i (segments props)); [lia|]. apply normalize_zero.
Qed.

Lemma useLayoutEffect_result props mounted :
  (1 <= segments props)%nat ->
  exists geo0 uvs indices,
    useLayoutEffect props mounted = Some geo0
    /\ position geo0
       = Some (mkBufferAttribute
                 (replicate ((segments props + 1) * 2 * 3) 0) 3)
    /\ uv geo0 = Some (mkBufferAttribute uvs 2)
    /\ index geo0 = Some indices
    /\ List.length indices = (6 * segments props)%nat.
Proof.
  intros Hseg. unfold useLayoutEffect.
  assert (Hnz : INR (segments props) <> 0) by (apply not_0_INR; lia).
  destruct (for_each_invariant
    (fun k (st : list R * list nat) =>
       List.length st.2 = (6 * Nat.min k (segments props))%nat)
    (layoutStep props) (S (segments props)) 0
    (replicate ((segments props + 1) * 2 * 2) 0, @nil nat))
    as ([uvs indices] & Hloop & Hlen).
  { reflexivity. }
  { intros i [uvs indices] Hi Hinv. cbn [snd] in Hinv.
    unfold layoutStep. rewrite fdiv_Some by exact Hnz. cbn [mbind option_bind].
    eexists. split; [reflexivity|]. cbn [snd].
    destruct (Nat.ltb_spec i (segments props)).
    - rewrite !length_app, Hinv. cbn [List.length]. lia.
    - rewrite Hinv. lia. }
  rewrite Hloop. cbn [mbind option_bind fst snd].
  eexists _, uvs, indices. split; [reflexivity|]. cbn [position uv index].
  repeat split. cbn [snd] in Hlen. rewrite Hlen. lia.
Qed.

Example sample_layout :
  useLayoutEffect sampleProps emptyGeometry
  = Some {| position := Some (mkBufferAttribute (replicate 12 0) 3);
            uv := Some (mkBufferAttribute [0; 0; 1; 0; 0; 1; 1; 1] 2);
            index := Some [0; 1; 2; 1; 3; 2]%nat;
            normal := None |}.
Proof.
  unfold useLayoutEffect, layoutStep. cbn [for_each seq segments sampleProps].
  rewrite !fdiv_Some by (simpl; lra). cbn.
  replace (0 / 1) with 0 by lra. replace (1 / 1) with 1 by lra.
  reflexivity.
Qed.

Lemma position_ok_after_frame vertexNormals props paths time progress geo :
  paths_ok props paths -> position_ok props geo ->
  exists geo',
    useFrame vertexNormals props paths time progress geo = Some geo'
    /\ position_ok props geo'
    /\ uv geo' = uv geo /\ index geo' = index geo.
Proof.
  intros Hpaths Hgeo. eexists. split.
  - apply useFrame_result; assumption.
  - cbn [position uv index]. split; [|split; reflexivity].
    eexists. split; [reflexivity|]. cbn [itemSize array].
    split; [reflexivity|]. apply stripPrefix_length; [exact Hpaths|lia].
Qed.

Lemma ribbonFrames_keep_layout vertexNormals props paths ticks : forall geo,
  paths_ok props paths -> position_ok props geo ->
  exists geo',
    ribbonFrames vertexNormals props paths ticks geo = Some geo'
    /\ position_ok props geo' /\ index geo' = index geo.
Proof.
  induction ticks as [|[time progress] ticks IH]; intros geo Hpaths Hgeo.
  - exists geo. split; [reflexivity|]. split; [exact Hgeo|reflexivity].
  - destruct (position_ok_after_frame vertexNormals props paths time progress
                geo Hpaths Hgeo) as (geo1 & Hframe & Hok & _ & Hindex).
    destruct (IH geo1 Hpaths Hok) as (geo' & Hrun & Hok' & Hindex').
    exists geo'. cbn [ribbonFrames]. rewrite Hframe. cbn [mbind option_bind].
    split; [exact Hrun|]. split; [exact Hok'|congruence].
Qed.

Lemma position_ok_count props geo :
  position_ok props geo ->
  exists posAttr,
    position geo = Some posAttr
    /\ count posAttr = (2 * (segments props + 1))%nat.
Proof.
  intros (posAttr & Hpos & Hsize & Hlen). exists posAttr.
  split; [exact Hpos|]. unfold count. rewrite Hsize, Hlen.
  replace (6 * S (segments props))%nat
    with ((2 * (segments props + 1)) * 3)%nat by lia.
  apply Nat.div_mul. lia.
Qed.

(** C6: for a ribbon of [N >= 1] segments, the geometry set up by the
    layout effect has a position attribute of [2 (N + 1)] vertices and an
    index of [6 N] entries; after any sequence of frames, whatever their
    times and progress values, the position attribute still has
    [2 (N + 1)] vertices and the index is the one built at set-up. *)
Theorem ribbon_buffer_sizes
    (vertexNormals : list R -> option (list nat) -> list R)
    (props : RibbonProps) (paths : Paths) (mounted : Geometry)
    (ticks : list (R * R))
    (Hsegments : (1 <= segments props)%nat)
    (Hpaths : paths_ok props paths) :
  exists geo0 geo posAttr0 posAttr indices,
    useLayoutEffect props mounted = Some geo0
    /\ position geo0 = Some posAttr0
    /\ count posAttr0 = (2 * (segments props + 1))%nat
    /\ index geo0 = Some indices
    /\ List.length indices = (6 * segments props)%nat
    /\ ribbonFrames vertexNormals props paths ticks geo0 = Some geo
    /\ position geo = Some posAttr
    /\ count posAttr = (2 * (segments props + 1))%nat
    /\ index geo = Some indices.
Proof.
  destruct (useLayoutEffect_result props mounted Hsegments)
    as (geo0 & uvs & indices & Hlayout & Hpos0 & _ & Hindex & Hlen).
  assert (Hok0 : position_ok props geo0).
  { eexists. split; [exact Hpos0|]. cbn [itemSize array].
    split; [reflexivity|]. rewrite length_replicate. lia. }
  destruct (ribbonFrames_keep_layout vertexNormals props paths ticks geo0
              Hpaths Hok0) as (geo & Hrun & Hok & Hindex').
  destruct (position_ok_count props geo0 Hok0) as (posAttr0 & Hp0 & Hc0).
  destruct (position_ok_count props geo Hok) as (posAttr & Hp & Hc).
  exists geo0, geo, posAttr0, posAttr, indices.
  do 8 (split; [assumption|]). congruence.
Qed.

Lemma ribbon_buffer_sizes_witness :
  exists geo0 geo posAttr0 posAttr indices,
    useLayoutEffect sampleProps emptyGeometry = Some geo0
    /\ position geo0 = Some posAttr0
    /\ count posAttr0 = 4%nat
    /\ index geo0 = Some indices
    /\ List.length indices = 6%nat
    /\ ribbonFrames (fun _ _ => []) sampleProps samplePaths [(0, 0.5)] geo0
       = Some geo
    /\ position geo = Some posAttr
    /\ count posAttr = 4%nat
    /\ index geo = Some indices.
Proof.
  refine (ribbon_buffer_sizes (fun _ _ => []) sampleProps samplePaths
            emptyGeometry [(0, 0.5)] _ _).
  - simpl. lia.
  - split; reflexivity.
Defined.

Lemma stripEntries_last props paths t time c :
  paths_ok props paths ->
  center props paths t time (segments props) = Some c ->
  stripEntries props paths t time (segments props)
  = [x c; y c; z c; x c; y c; z c].
Proof.
  intros Hpaths Hc. unfold stripEntries.
  rewrite Hc, (normal_at_last props paths t time Hpaths).
  rewrite multiplyScalar_zero. cbn [x y z].
  rewrite !Rplus_0_r, !Rminus_0_r. reflexivity.
Qed.

(** C10: at every frame and for every progress, the tangent at the final
    path index [N] is the fixed vector (0,1,0), parallel to the up
    reference of the cross product, so the side vector is zero and the two
    vertices written for index [N] (vertices [2 N] and [2 N + 1]) both
    equal the blended centre at [N]. *)
Theorem ribbon_far_end_has_zero_width
    (vertexNormals : list R -> option (list nat) -> list R)
    (props : RibbonProps) (paths : Paths) (time progress : R) (geo : Geometry)
    (Hpaths : paths_ok props paths) (Hgeo : position_ok props geo) :
  let N := segments props in
  let t := easing progress in
  exists geo' posAttr c,
    useFrame vertexNormals props paths time progress geo = Some geo'
    /\ position geo' = Some posAttr
    /\ center props paths t time N = Some c
    /\ tangent_at props paths t time N = Some (mkVector3 0 1 0)
    /\ crossVectors (mkVector3 0 1 0) binormal = mkVector3 0 0 0
    /\ normal_at props paths t time N = Some (mkVector3 0 0 0)
    /\ getXYZ posAttr (N * 2) = Some c
    /\ getXYZ posAttr (N * 2 + 1) = Some c.
Proof.
  intros N t.
  destruct (center_Some props paths Hpaths t time N ltac:(lia)) as [c Hc].
  eexists _, _, c. split; [apply useFrame_result; assumption|].
  cbn [position]. split; [reflexivity|]. split; [exact Hc|].
  split; [apply tangent_at_last, Hpaths|]. split; [apply cross_up_up|].
  split; [apply normal_at_last, Hpaths|].
  assert (Hlen := stripPrefix_length props paths Hpaths t time N ltac:(lia)).
  unfold getXYZ. cbn [array itemSize]. fold t.
  rewrite stripPrefix_S, (stripEntries_last props paths t time c Hpaths Hc).
  fold N. split.
  - rewrite !lookup_app_r by lia.
    replace (N * 2 * 3 + 0 - _)%nat with 0%nat by lia.
    replace (N * 2 * 3 + 1 - _)%nat with 1%nat by lia.
    replace (N * 2 * 3 + 2 - _)%nat with 2%nat by lia.
    destruct c; reflexivity.
  - rewrite !lookup_app_r by lia.
    replace ((N * 2 + 1) * 3 + 0 - _)%nat with 3%nat by lia.
    replace ((N * 2 + 1) * 3 + 1 - _)%nat with 4%nat by lia.
    replace ((N * 2 + 1) * 3 + 2 - _)%nat with 5%nat by lia.
    destruct c; reflexivity.
Qed.

Lemma ribbon_far_end_has_zero_width_witness :
  exists geo' posAttr c,
    useFrame (fun _ _ => []) sampleProps samplePaths 0 0.5 (sampleGeometry 9)
    = Some geo'
    /\ position geo' = Some posAttr
    /\ center sampleProps samplePaths (easing 0.5) 0 1 = Some c
    /\ tangent_at sampleProps samplePaths (easing 0.5) 0 1 = Some (mkVector3 0 1 0)
    /\ crossVectors (mkVector3 0 1 0) binormal = mkVector3 0 0 0
    /\ normal_at sampleProps samplePaths (easing 0.5) 0 1 = Some (mkVector3 0 0 0)
    /\ getXYZ posAttr 2 = Some c
    /\ getXYZ posAttr 3 = Some c.
Proof.
  refine (ribbon_far_end_has_zero_width (fun _ _ => []) sampleProps samplePaths
            0 0.5 (sampleGeometry 9) _ _).
  - split; reflexivity.
  - eexists. split; [reflexivity|]. split; reflexivity.
Defined.

(** Coincident consecutive centres: the finite difference is the zero
    vector and so is the tangent. *)
Example coincident_samples_give_zero_tangent :
  difference sampleProps coincidentPaths (easing 1) 0 0 = Some (mkVector3 0 0 0)
  /\ tangent_at sampleProps coincidentPaths (easing 1) 0 0 = Some (mkVector3 0 0 0).
Proof.
  assert (Hd : difference sampleProps coincidentPaths (easing 1) 0 0
               = Some (mkVector3 0 0 0)).
  { unfold difference, center, MathUtils.lerp, easing. cbn.
    do 2 f_equal; lra. }
  split; [exact Hd|].
  apply tangent_at_degenerate; [simpl; lia|exact Hd].
Qed.

(** C5, the claim as written fails: at the last path index of any ribbon
    the tangent (0,1,0) is parallel to the up reference, the cross product
    is the zero vector, and the callback normalises that zero vector; the
    normal it goes on with is the zero vector, not an axis of length 1. *)
Lemma ribbon_zero_normal_is_not_replaced :
  tangent_at sampleProps samplePaths (easing 1) 0 1 = Some (mkVector3 0 1 0)
  /\ crossVectors (mkVector3 0 1 0) binormal = mkVector3 0 0 0
  /\ normal_at sampleProps samplePaths (easing 1) 0 1 = Some (mkVector3 0 0 0)
  /\ ~ (exists axis,
          length axis = Some 1
          /\ normal_at sampleProps samplePaths (easing 1) 0 1 = Some axis).
Proof.
  assert (Hpaths : paths_ok sampleProps samplePaths) by (split; reflexivity).
  assert (Hn := normal_at_last sampleProps samplePaths (easing 1) 0 Hpaths).
  split; [exact (tangent_at_last sampleProps samplePaths (easing 1) 0 Hpaths)|].
  split; [apply cross_up_up|]. split; [exact Hn|].
  intros (axis & Hlen & Haxis).
  change (segments sampleProps) with 1%nat in Hn.
  rewrite Hn in Haxis. injection Haxis as <-.
  rewrite length_zero in Hlen. injection Hlen as Hlen. lra.
Qed.

(** C5 (amended): the frame callback has no fallback axis for a
    zero-length tangent or normal.  It normalises with three.js's
    [normalize], which divides by [length || 1]: a zero finite difference
    gives a zero tangent, a tangent parallel to the up reference gives a
    zero normal, and no division by zero takes place.  For paths of
    [N + 1] samples and a position attribute of [2 (N + 1)] vertices, the
    callback therefore completes for every progress and every time, every
    number it writes being an ordinary real (no NaN). *)
Theorem ribbon_frame_keeps_zero_vectors_and_completes
    (vertexNormals : list R -> option (list nat) -> list R)
    (props : RibbonProps) (paths : Paths) (time progress : R) (geo : Geometry)
    (Hpaths : paths_ok props paths) (Hgeo : position_ok props geo) :
  let t := easing progress in
  (exists geo', useFrame vertexNormals props paths time progress geo = Some geo')
  /\ normalize (mkVector3 0 0 0) = Some (mkVector3 0 0 0)
  /\ (forall v, is_Some (normalize v))
  /\ (forall i, (i < segments props)%nat ->
        difference props paths t time i = Some (mkVector3 0 0 0) ->
        tangent_at props paths t time i = Some (mkVector3 0 0 0))
  /\ (forall i tg,
        tangent_at props paths t time i = Some tg ->
        crossVectors tg binormal = mkVector3 0 0 0 ->
        normal_at props paths t time i = Some (mkVector3 0 0 0)).
Proof.
  intros t. split; [|split; [|split; [|split]]].
  - eexists. apply useFrame_result; assumption.
  - apply normalize_zero.
  - intros v. rewrite normalize_Some. eauto.
  - intros i Hi Hd. apply tangent_at_degenerate; assumption.
  - intros i tg Htg Hcross. eapply normal_at_degenerate; eassumption.
Qed.

Lemma ribbon_frame_keeps_zero_vectors_and_completes_witness :
  exists geo',
    useFrame (fun _ _ => []) sampleProps samplePaths 0 0.5 (sampleGeometry 9)
    = Some geo'.
Proof.
  refine (proj1 (ribbon_frame_keeps_zero_vectors_and_completes
                   (fun _ _ => []) sampleProps samplePaths 0 0.5
                   (sampleGeometry 9) _ _)).
  - split; reflexivity.
  - eexists. split; [reflexivity|]. split; reflexivity.
Defined.

End RibbonClaims.

(** ** Instanced ornament animator *)
Section OrnamentFacts.
Import Ornaments.

Lemma write_at_app (vals : list R) : forall done rest : list R,
  (length vals <= length rest)%nat ->
  write_at (length done) vals (done ++ rest)
  = done ++ vals ++ drop (length vals) rest.
Proof.
  induction vals as [|v vals IH]; intros done rest Hlen.
  - reflexivity.
  - destruct rest as [|r rest]; [simpl in Hlen; lia|].
    cbn [write_at]. rewrite <- (Nat.add_0_r (length done)) at 2.
    rewrite insert_app_r. cbn [insert list_insert].
    replace (S (length done)) with (length (done ++ [v]))
      by (rewrite length_app; simpl; lia).
    replace (done ++ v :: rest) with ((done ++ [v]) ++ rest)
      by (rewrite <- app_assoc; reflexivity).
    rewrite IH by (simpl in Hlen; lia).
    rewrite <- app_assoc. reflexivity.
Qed.

Lemma itemObject_matrix_length item progress time :
  length (THREE.matrix (itemObject item progress time)) = 16%nat.
Proof. reflexivity. Qed.

(** A turn of the loop overwrites every field of [tempObject]. *)
Lemma animate_eq progress time item i st :
  animate progress time item i st
  = {| tempObject := itemObject item progress time;
       instanceMatrix :=
         THREE.setMatrixAt (instanceMatrix st) i
           (THREE.matrix (itemObject item progress time)) |}.
Proof. reflexivity. Qed.

(** The matrices of all items, in order. *)
Lemma forEach_animate_instanceMatrix progress time data :
  forall i st (done rest : list R),
    instanceMatrix st = done ++ rest ->
    length done = (i * 16)%nat ->
    length rest = (16 * length data)%nat ->
    instanceMatrix (forEach_from (animate progress time) i data st)
    = done ++ flat_map (fun item => THREE.matrix (itemObject item progress time)) data.
Proof.
  induction data as [|item data IH]; intros i st done rest Hst Hdone Hrest.
  - destruct rest; [|simpl in Hrest; lia]. simpl. exact Hst.
  - cbn [forEach_from flat_map]. rewrite animate_eq.
    set (m := THREE.matrix (itemObject item progress time)).
    rewrite (IH (S i) _ (done ++ m) (drop 16 rest)).
    + rewrite <- app_assoc. reflexivity.
    + cbn [instanceMatrix]. unfold THREE.setMatrixAt. rewrite Hst, <- Hdone.
      rewrite write_at_app by (subst m; rewrite itemObject_matrix_length;
                               simpl in Hrest; lia).
      rewrite app_assoc. reflexivity.
    + rewrite length_app. subst m. rewrite itemObject_matrix_length. lia.
    + rewrite length_drop. simpl in Hrest. lia.
Qed.

Lemma useFrame_instanceMatrix data time progress st :
  length (instanceMatrix st) = (16 * length data)%nat ->
  instanceMatrix (useFrame data time progress st)
  = flat_map (fun item => THREE.matrix (itemObject item progress time)) data.
Proof.
  intros Hlen. unfold useFrame.
  apply (forEach_animate_instanceMatrix progress time data 0 st [] (instanceMatrix st));
    [reflexivity|reflexivity|exact Hlen].
Qed.

Lemma forEach_animate_tempObject progress time data : forall i st,
  tempObject (forEach_from (animate progress time) i data st)
  = match last data with
    | Some item => itemObject item progress time
    | None => tempObject st
    end.
Proof.
  induction data as [|item data IH]; intros i st; [reflexivity|].
  cbn [forEach_from]. rewrite IH, animate_eq. cbn [tempObject].
  destruct data as [|item' data]; [reflexivity|].
  change (last (item :: item' :: data)) with (last (item' :: data)).
  destruct (last (item' :: data)) eqn:Hlast; [reflexivity|].
  apply last_None in Hlast. discriminate.
Qed.

Lemma flat_map_length_const {A : Type} (f : A -> list R) n (l : list A) :
  (forall a, length (f a) = n) -> length (flat_map f l) = (n * length l)%nat.
Proof.
  intros Hf. induction l as [|a l IH]; simpl; [lia|].
  rewrite length_app, Hf, IH. lia.
Qed.

(** The [i]-th block of a concatenation of blocks of equal length. *)
Lemma flat_map_block {A : Type} (f : A -> list R) n (l : list A) :
  (forall a, length (f a) = n) ->
  forall i a, l !! i = Some a -> take n (drop (i * n) (flat_map f l)) = f a.
Proof.
  intros Hf. induction l as [|b l IH]; intros i a Hi; [discriminate|].
  destruct i as [|i]; cbn [flat_map].
  - injection Hi as ->. rewrite drop_0. apply take_app_length'. symmetry. apply Hf.
  - replace (S i * n)%nat with (length (f b) + i * n)%nat by (rewrite Hf; lia).
    rewrite drop_app_add. apply IH. exact Hi.
Qed.

Lemma instancePosition_useFrame data time progress st i item :
  length (instanceMatrix st) = (16 * length data)%nat ->
  data !! i = Some item ->
  instancePosition (useFrame data time progress st) i
  = Some (itemPosition item progress time).
Proof.
  intros Hlen Hitem. unfold instancePosition.
  rewrite useFrame_instanceMatrix by exact Hlen.
  unfold THREE.getMatrixAt.
  rewrite (flat_map_block _ 16 data
             (fun a => itemObject_matrix_length a progress time) i item Hitem).
  reflexivity.
Qed.

End OrnamentFacts.

Section OrnamentClaims.
Import Ornaments.

(** [data] has [count] items. *)
Lemma makeData_length count scaleBase rand data :
  makeData count scaleBase rand = Some data -> length data = count.
Proof.
  unfold makeData. intros Hmake.
  apply (for_each_preserves (fun k (acc : list PositionData) => length acc = k)
           _ _ 0 [] data eq_refl) in Hmake; [exact Hmake|].
  intros i st st' _ Hlen Hstep.
  destruct (makeItem scaleBase i count _); [|discriminate].
  cbn [mbind option_bind] in Hstep.
  injection Hstep as <-. rewrite length_app, Hlen. simpl. lia.
Qed.

Lemma itemPosition_assembled item time :
  itemPosition item 1 time = Vector3_of (treePosition item).
Proof.
  unfold itemPosition, Vector3_of, smoothstep, THREE.MathUtils.lerp.
  f_equal; lra.
Qed.

Lemma itemPosition_scattered item time :
  itemPosition item 0 time
  = THREE.mkVector3
      (scatterPosition item).1.1
      ((scatterPosition item).1.2
       + Math.sin (time * speed item + phase item) * 0.5)
      (scatterPosition item).2.
Proof.
  unfold itemPosition, smoothstep, THREE.MathUtils.lerp.
  f_equal; lra.
Qed.

(** C1, the claim as written fails at progress 0: the float term has its
    full amplitude there.  For an ornament scattered at the origin with
    speed 0.5 and phase [pi / 2], the position at progress 0 and time 0 is
    (0, 0.5, 0), half a unit above its scatter position. *)
Lemma ornament_floats_at_progress_zero :
  instancePosition (useFrame [sampleItem] 0 0 (sampleState 9)) 0
  = Some (THREE.mkVector3 0 0.5 0)
  /\ Vector3_of (scatterPosition sampleItem) = THREE.mkVector3 0 0 0
  /\ (forall tol, tol < 0.5 -> ~ Rabs (0.5 - 0) <= tol).
Proof.
  split; [|split; [reflexivity|]].
  - rewrite (instancePosition_useFrame [sampleItem] 0 0 (sampleState 9) 0 sampleItem)
      by reflexivity.
    rewrite itemPosition_scattered. unfold sampleItem, Math.sin, Math.PI.
    cbn [scatterPosition speed phase fst snd].
    replace (0 * 0.5 + PI / 2) with (PI / 2) by lra.
    rewrite sin_PI2. do 2 f_equal. lra.
  - intros tol Htol. rewrite Rminus_0_r, Rabs_pos_eq by lra. lra.
Qed.

(** C1 (amended): for every instance and any elapsed time, with progress
    exactly 1 the instance position written to the transform buffer is
    its precomputed tree position (exactly, hence within any tolerance);
    with progress exactly 0 it has the x and z of its scatter position and
    the y of its scatter position plus [0.5 sin(time speed + phase)], a
    float of at most 0.5. *)
Theorem ornament_positions_at_the_ends
    (data : list PositionData) (st : State) (i : nat) (item : PositionData)
    (time : R)
    (Hbuffer : length (instanceMatrix st) = (16 * length data)%nat)
    (Hitem : data !! i = Some item) :
  instancePosition (useFrame data time 1 st) i
  = Some (Vector3_of (treePosition item))
  /\ instancePosition (useFrame data time 0 st) i
     = Some (THREE.mkVector3
               (scatterPosition item).1.1
               ((scatterPosition item).1.2
                + Math.sin (time * speed item + phase item) * 0.5)
               (scatterPosition item).2)
  /\ Rabs (Math.sin (time * speed item + phase item) * 0.5) <= 0.5.
Proof.
  split; [|split].
  - rewrite (instancePosition_useFrame data time 1 st i item Hbuffer Hitem).
    f_equal. apply itemPosition_assembled.
  - rewrite (instancePosition_useFrame data time 0 st i item Hbuffer Hitem).
    f_equal. apply itemPosition_scattered.
  - apply Rabs_le. unfold Math.sin.
    assert (Hsin := SIN_bound (time * speed item + phase item)). lra.
Qed.

Lemma ornament_positions_at_the_ends_witness :
  instancePosition (useFrame [sampleItem] 3 1 (sampleState 9)) 0
  = Some (THREE.mkVector3 1 2 3).
Proof.
  refine (proj1 (ornament_positions_at_the_ends [sampleItem] (sampleState 9)
                   0 sampleItem 3 _ _)); reflexivity.
Defined.

(** C7: the ribbon frame and the ornament frame are functions of
    (progress, time) and the static data alone.  Started from any two
    geometries with the ribbon's layout and the same uv and index, the
    ribbon frame returns the same geometry, and run again on its own
    output it returns that output; started from any two states with a
    transform buffer of the right size, whatever the buffer and the shared
    [tempObject] held, the ornament frame leaves the same transform
    buffer, and run again on its own output it leaves that output. *)
Theorem frame_recompute_is_a_function_of_its_inputs
    (vertexNormals : list R -> option (list nat) -> list R)
    (props : Ribbons.RibbonProps) (paths : Ribbons.Paths)
    (time progress : R) (geo1 geo2 : Ribbons.Geometry)
    (data : list PositionData) (st1 st2 : State)
    (Hpaths : paths_ok props paths)
    (Hgeo1 : position_ok props geo1) (Hgeo2 : position_ok props geo2)
    (Huv : Ribbons.uv geo1 = Ribbons.uv geo2)
    (Hindex : Ribbons.index geo1 = Ribbons.index geo2)
    (Hst1 : length (instanceMatrix st1) = (16 * length data)%nat)
    (Hst2 : length (instanceMatrix st2) = (16 * length data)%nat) :
  (exists geo',
     Ribbons.useFrame vertexNormals props paths time progress geo1 = Some geo'
     /\ Ribbons.useFrame vertexNormals props paths time progress geo2 = Some geo'
     /\ Ribbons.useFrame vertexNormals props paths time progress geo' = Some geo')
  /\ instanceMatrix (useFrame data time progress st1)
     = instanceMatrix (useFrame data time progress st2)
  /\ useFrame data time progress (useFrame data time progress st1)
     = useFrame data time progress st1.
Proof.
  split; [|split].
  - destruct (position_ok_after_frame vertexNormals props paths time progress
                geo1 Hpaths Hgeo1) as (geo' & Hframe & Hok & Huv' & Hindex').
    exists geo'. split; [exact Hframe|].
    rewrite (useFrame_result vertexNormals props paths Hpaths time progress geo1 Hgeo1)
      in Hframe.
    split.
    + rewrite (useFrame_result vertexNormals props paths Hpaths time progress geo2 Hgeo2).
      rewrite <- Huv, <- Hindex. exact Hframe.
    + rewrite (useFrame_result vertexNormals props paths Hpaths time progress geo' Hok).
      rewrite Huv', Hindex'. exact Hframe.
  - rewrite !useFrame_instanceMatrix by assumption. reflexivity.
  - assert (Hout : length (instanceMatrix (useFrame data time progress st1))
                   = (16 * length data)%nat).
    { rewrite useFrame_instanceMatrix by exact Hst1.
      apply flat_map_length_const. intros a. reflexivity. }
    assert (Hmat := useFrame_instanceMatrix data time progress _ Hout).
    rewrite <- (useFrame_instanceMatrix data time progress st1 Hst1) in Hmat.
    assert (Htemp :
      tempObject (useFrame data time progress (useFrame data time progress st1))
      = tempObject (useFrame data time progress st1)).
    { unfold useFrame at 1. rewrite forEach_animate_tempObject.
      destruct (last data) as [item|] eqn:Hlast.
      - unfold useFrame. rewrite forEach_animate_tempObject, Hlast. reflexivity.
      - reflexivity. }
    destruct (useFrame data time progress (useFrame data time progress st1)).
    destruct (useFrame data time progress st1).
    simpl in Hmat, Htemp. subst. reflexivity.
Qed.

Lemma frame_recompute_is_a_function_of_its_inputs_witness :
  instanceMatrix (useFrame [sampleItem] 3 0.5 (sampleState 9))
  = instanceMatrix (useFrame [sampleItem] 3 0.5 (sampleState 0)).
Proof.
  refine (proj1 (proj2
    (frame_recompute_is_a_function_of_its_inputs (fun _ _ => [])
       sampleProps samplePaths 3 0.5 (sampleGeometry 9) (sampleGeometry 0)
       [sampleItem] (sampleState 9) (sampleState 0) _ _ _ _ _ _ _))).
  - split; reflexivity.
  - eexists. split; [reflexivity|]. split; reflexivity.
  - eexists. split; [reflexivity|]. split; reflexivity.
  - reflexivity.
  - reflexivity.
  - reflexivity.
  - reflexivity.
Defined.

End OrnamentClaims.

(** * Further properties *)

(** ** Progress controller, either target and any starting value *)
Section ProgressControllerRecovery.
Import Experience.

Lemma tick_snaps ts dt c :
  Rabs (targetProgress ts - c) <= 0.001 -> tick ts dt c = targetProgress ts.
Proof.
  intros Hgap. rewrite tick_unfold.
  destruct Rlt_dec as [H | H]; [lra|reflexivity].
Qed.

(** A frame of at most half a second scales the signed gap by [1 - 2 dt],
    or closes it. *)
Lemma tick_gap_scaled ts dt c :
  0 < dt <= 1 / 2 ->
  Rabs (targetProgress ts - tick ts dt c)
  <= (1 - 2 * dt) * Rabs (targetProgress ts - c).
Proof.
  intros Hdt. rewrite tick_unfold.
  destruct Rlt_dec as [Hgap | Hgap].
  - replace (targetProgress ts - (c + (targetProgress ts - c) * (2.0 * dt)))
      with ((1 - 2 * dt) * (targetProgress ts - c)) by lra.
    rewrite Rabs_mult, (Rabs_pos_eq (1 - 2 * dt)) by lra. lra.
  - rewrite Rminus_diag, Rabs_R0.
    apply Rmult_le_pos; [lra|apply Rabs_pos].
Qed.

Lemma progress_after_gap_scaled ts dmin dts : forall c,
  0 < dmin ->
  Forall (fun d => dmin <= d <= 1 / 2) dts ->
  Rabs (targetProgress ts - progress_after ts dts c)
  <= (1 - 2 * dmin) ^ length dts * Rabs (targetProgress ts - c).
Proof.
  induction dts as [|dt dts IH]; intros c Hmin Hall.
  - rewrite progress_after_nil. simpl. lra.
  - rewrite progress_after_cons. inversion Hall as [|? ? Hdt Hrest]; subst.
    eapply Rle_trans; [apply IH; assumption|]. simpl length. simpl pow.
    assert (Hstep := tick_gap_scaled ts dt c ltac:(lra)).
    assert (Hp : 0 <= (1 - 2 * dmin) ^ length dts) by (apply pow_le; lra).
    assert (Hc := Rabs_pos (targetProgress ts - c)).
    assert (Hstep' : Rabs (targetProgress ts - tick ts dt c)
                     <= (1 - 2 * dmin) * Rabs (targetProgress ts - c)) by nra.
    apply (Rmult_le_compat_l _ _ _ Hp) in Hstep'. lra.
Qed.

Lemma progress_after_rests ts dts : forall c,
  c = targetProgress ts -> progress_after ts dts c = targetProgress ts.
Proof.
  induction dts as [|dt dts IH]; intros c ->.
  - reflexivity.
  - rewrite progress_after_cons. apply IH. apply tick_at_target.
Qed.

(** X1: from any starting value, inside [[0,1]] or not, and for either
    target, frames with deltas in [[dmin, 1/2]] never widen the gap to the
    target, and the progress is exactly the target after any [n + 1] frames
    with [(1 - 2 dmin)^n |target - start| <= 0.001]. *)
Theorem progress_settles_from_any_start
    (treeState : TreeState) (dmin c : R) (dts : list R) (n : nat)
    (Hmin : 0 < dmin)
    (Hdts : Forall (fun d => dmin <= d <= 1 / 2) dts)
    (Hn : (1 - 2 * dmin) ^ n * Rabs (targetProgress treeState - c) <= 0.001)
    (Hlen : (n < length dts)%nat) :
  progress_after treeState dts c = targetProgress treeState
  /\ (forall k,
        Rabs (targetProgress treeState
              - progress_after treeState (take (S k) dts) c)
        <= Rabs (targetProgress treeState
                 - progress_after treeState (take k dts) c)).
Proof.
  split.
  - rewrite <- (take_drop (S n) dts), progress_after_app.
    apply progress_after_rests.
    destruct (lookup_lt_is_Some_2 dts n Hlen) as [d Hd].
    rewrite (take_S_r dts n d Hd), progress_after_snoc.
    apply tick_snaps.
    assert (Hgap := progress_after_gap_scaled treeState dmin (take n dts) c Hmin
                      ltac:(by apply Forall_take)).
    rewrite length_take, Nat.min_l in Hgap by lia. lra.
  - intros k. destruct (le_lt_dec (length dts) k) as [Hk | Hk].
    + rewrite !take_ge by lia. lra.
    + destruct (lookup_lt_is_Some_2 dts k Hk) as [d Hd].
      rewrite (take_S_r dts k d Hd), progress_after_snoc.
      assert (Hdk : dmin <= d <= 1 / 2).
      { rewrite Forall_lookup in Hdts. exact (Hdts k d Hd). }
      assert (Hstep := tick_gap_scaled treeState d
                         (progress_after treeState (take k dts) c) ltac:(lra)).
      assert (Hpos := Rabs_pos (targetProgress treeState
                                - progress_after treeState (take k dts) c)).
      nra.
Qed.

Lemma progress_settles_from_any_start_witness :
  progress_after SCATTERED (replicate 12 (1 / 4)) 2 = 0.
Proof.
  refine (proj1 (progress_settles_from_any_start SCATTERED (1 / 4) 2
                   (replicate 12 (1 / 4)) 11 _ _ _ _)).
  - lra.
  - simpl. repeat (constructor; [lra|]). constructor.
  - simpl. rewrite Rminus_0_l, Rabs_Ropp, Rabs_pos_eq by lra. lra.
  - simpl. lia.
Defined.

(** X2: a frame of exactly one second does not damp: while the gap exceeds
    the snap threshold it mirrors the progress about the target, so two
    such frames bring it back to where it was. *)
Theorem one_second_frames_mirror_progress
    (treeState : TreeState) (c : R)
    (Hgap : 0.001 < Rabs (targetProgress treeState - c)) :
  tick treeState 1 c = 2 * targetProgress treeState - c
  /\ tick treeState 1 (tick treeState 1 c) = c.
Proof.
  assert (Hone : forall c', 0.001 < Rabs (targetProgress treeState - c') ->
                 tick treeState 1 c' = 2 * targetProgress treeState - c').
  { intros c' Hc'. rewrite tick_unfold.
    destruct Rlt_dec as [H | H]; [lra|contradiction]. }
  split; [apply Hone, Hgap|].
  rewrite (Hone c Hgap), Hone; [lra|].
  replace (targetProgress treeState - (2 * targetProgress treeState - c))
    with (- (targetProgress treeState - c)) by lra.
  rewrite Rabs_Ropp. exact Hgap.
Qed.

Lemma one_second_frames_mirror_progress_witness :
  tick TREE_SHAPE 1 0 = 2 * 1 - 0
  /\ tick TREE_SHAPE 1 (tick TREE_SHAPE 1 0) = 0.
Proof.
  refine (one_second_frames_mirror_progress TREE_SHAPE 0 _).
  simpl. rewrite Rminus_0_r, Rabs_R1. lra.
Defined.

(** X3: while the target is the tree, the group turns by a tenth of every
    frame delta, so after a run its angle has grown by [0.1] times the
    elapsed time; while scattered the angle is left alone. *)
Theorem group_rotation_accumulates
    (treeState : TreeState) (dts : list R) (s : Scene) :
  rotation_y (run treeState dts s)
  = rotation_y s
    + match treeState with
      | TREE_SHAPE => 0.1 * foldr Rplus 0 dts
      | SCATTERED => 0
      end.
Proof.
  unfold run. revert s.
  induction dts as [|dt dts IH]; intros s.
  - simpl. destruct treeState; lra.
  - cbn [fold_left foldr]. rewrite IH.
    destruct treeState; cbn [useFrame rotation_y]; lra.
Qed.

(** X4: the application starts scattered, and until the button is clicked
    the frame callback of [SceneContent] changes neither of the two values
    it owns: after frames of any deltas the animation progress is still 0
    and the y rotation of the group is still 0 (the children run their own
    frame callbacks, which are not part of this statement).  After [n]
    clicks on the button the target is 0 for even [n] and 1 for odd [n]. *)
Theorem scene_rests_until_clicked (dts : list R) (n : nat) :
  run App.initialTreeState dts App.initialScene = App.initialScene
  /\ targetProgress (Nat.iter n App.onClick App.initialTreeState)
     = if Nat.even n then 0 else 1.
Proof.
  split.
  - unfold run. induction dts as [|dt dts IH]; [reflexivity|].
    cbn [fold_left].
    replace (useFrame App.initialTreeState dt App.initialScene)
      with App.initialScene; [exact IH|].
    unfold useFrame, App.initialScene, App.initialTreeState.
    cbn [animationProgress rotation_y targetProgress].
    destruct Rlt_dec as [H | H]; [|reflexivity].
    exfalso. unfold Math.abs in H. rewrite Rminus_diag, Rabs_R0 in H. lra.
  - assert (Hpair : forall m,
      Nat.iter (2 * m) App.onClick App.initialTreeState = SCATTERED
      /\ Nat.iter (S (2 * m)) App.onClick App.initialTreeState = TREE_SHAPE).
    { induction m as [|m [IH0 IH1]]; [split; reflexivity|].
      replace (2 * S m)%nat with (S (S (2 * m))) by lia.
      split.
      - cbn [Nat.iter nat_rect]. cbn [Nat.iter nat_rect] in IH1.
        rewrite IH1. reflexivity.
      - change (App.onClick (Nat.iter (S (S (2 * m))) App.onClick
                               App.initialTreeState) = TREE_SHAPE).
        change (App.onClick (App.onClick (Nat.iter (S (2 * m)) App.onClick
                               App.initialTreeState)) = TREE_SHAPE).
        rewrite IH1. reflexivity. }
    destruct (Nat.Even_or_Odd n) as [[m ->] | [m ->]].
    + rewrite (proj1 (Hpair m)).
      replace (Nat.even (2 * m)) with true
        by (symmetry; apply Nat.even_spec; exists m; reflexivity).
      reflexivity.
    + replace (2 * m + 1)%nat with (S (2 * m)) by lia.
      rewrite (proj2 (Hpair m)). rewrite Nat.even_succ.
      replace (Nat.odd (2 * m)) with false; [reflexivity|].
      symmetry. rewrite <- Nat.negb_even.
      replace (Nat.even (2 * m)) with true
        by (symmetry; apply Nat.even_spec; exists m; reflexivity).
      reflexivity.
Qed.

End ProgressControllerRecovery.

(** ** Samplers: where the samples lie, and when there is none *)
Section SamplerShapes.
Import MathUtil.

(** X5: for [height > 0], [baseRadius >= 0], an index below [total] and a
    draw in [[0,1)], the tree sample lies inside the cone: its height above
    the cone's base is [f height] with [f = index/total] in [[0,1)], and its
    distance from the axis is at most the tapered radius
    [baseRadius (1 - f)]. *)
Theorem tree_sample_inside_cone
    (height baseRadius yOffset : R) (index total : nat) (rand : nat -> R)
    (Hheight : 0 < height) (Hbase : 0 <= baseRadius)
    (Hindex : (index < total)%nat) (Hrand : 0 <= rand 0%nat < 1) :
  let f := INR index / INR total in
  exists p,
    getTreePosition height baseRadius yOffset index total rand = Some p
    /\ p.1.2 + yOffset = f * height
    /\ 0 <= p.1.2 + yOffset < height
    /\ R_sqrt.sqrt (p.1.1 * p.1.1 + p.2 * p.2) <= baseRadius * (1 - f).
Proof.
  intros f. assert (Hf := index_fraction index total Hindex). fold f in Hf.
  eexists. split.
  { apply getTreePosition_Some; [lra|lia|lra]. }
  fold f. unfold polar. cbn [fst snd].
  split; [lra|]. split; [nra|].
  set (r := (1 - f) * baseRadius * R_sqrt.sqrt (rand 0%nat)).
  set (theta := INR index * goldenAngle).
  assert (Hroot : 0 <= R_sqrt.sqrt (rand 0%nat) <= 1).
  { split; [apply sqrt_pos|]. rewrite <- sqrt_1. apply sqrt_le_1_alt. lra. }
  assert (Hr : 0 <= r).
  { unfold r. apply Rmult_le_pos; [apply Rmult_le_pos; lra|lra]. }
  replace (r * Math.cos theta * (r * Math.cos theta)
           + r * Math.sin theta * (r * Math.sin theta))
    with (r * r * (Rsqr (sin theta) + Rsqr (cos theta)))
    by (unfold Math.cos, Math.sin, Rsqr; ring).
  rewrite sin2_cos2, Rmult_1_r, sqrt_square by exact Hr.
  unfold r. assert (Hprod : 0 <= (1 - f) * baseRadius)
    by (apply Rmult_le_pos; lra).
  nra.
Qed.

Lemma tree_sample_inside_cone_witness :
  exists p,
    getTreePosition 12 5 6 1 2 (fun _ => 0) = Some p
    /\ p.1.2 + 6 = INR 1 / INR 2 * 12
    /\ 0 <= p.1.2 + 6 < 12
    /\ R_sqrt.sqrt (p.1.1 * p.1.1 + p.2 * p.2) <= 5 * (1 - INR 1 / INR 2).
Proof.
  refine (tree_sample_inside_cone 12 5 6 1 2 (fun _ => 0) _ _ _ _);
    try lra; lia.
Defined.

(** X6: with a draw that [Math.sqrt] accepts, the tree sampler produces a
    point exactly when [total] and [height] are both non-zero; for
    [total = 0] or [height = 0] a division by zero makes the result
    non-finite. *)
Theorem tree_sample_needs_total_and_height
    (height baseRadius yOffset : R) (index total : nat) (rand : nat -> R)
    (Hrand : 0 <= rand 0%nat) :
  getTreePosition height baseRadius yOffset index total rand = None
  <-> total = 0%nat \/ height = 0.
Proof.
  split.
  - intros Hnone.
    destruct (Nat.eq_dec total 0%nat) as [Ht | Ht]; [left; exact Ht|].
    destruct (Req_dec_T height 0) as [Hh | Hh]; [right; exact Hh|].
    rewrite getTreePosition_Some in Hnone by assumption. discriminate.
  - intros [-> | ->]; unfold getTreePosition;
      rewrite (Math_sqrt_Some 5) by lra; cbn [mbind option_bind].
    + simpl INR. rewrite fdiv_zero. reflexivity.
    + destruct (fdiv (INR index) (INR total)); [|reflexivity].
      cbn [mbind option_bind]. rewrite fdiv_zero. reflexivity.
Qed.

Lemma tree_sample_needs_total_and_height_witness :
  getTreePosition 12 5 6 0 0 (fun _ => 0) = None
  <-> 0%nat = 0%nat \/ 12 = 0.
Proof.
  refine (tree_sample_needs_total_and_height 12 5 6 0 0 (fun _ => 0) _). lra.
Defined.

(** X7: the scatter sampler places its point at height [r (2 v - 1)] along
    the polar axis, [r = R cbrt(w)], with squared distance
    [r^2 (1 - (2 v - 1)^2)] from that axis: the height is an affine image of
    the second draw [v], which is what spreads the directions evenly over
    the sphere. *)
Theorem scatter_sample_height_is_affine_in_draw
    (radius : R) (rand : nat -> R) (Hv : 0 <= rand 1%nat <= 1) :
  let r := radius * Math.cbrt (rand 2%nat) in
  let c := 2 * rand 1%nat - 1 in
  exists p,
    getScatterPosition radius rand = Some p
    /\ p.2 = r * c
    /\ p.1.1 * p.1.1 + p.1.2 * p.1.2 = r * r * (1 - c * c).
Proof.
  intros r c. unfold getScatterPosition.
  rewrite Math_acos_Some by lra. cbn [mbind option_bind].
  eexists. split; [reflexivity|]. cbn [fst snd]. fold c.
  replace (Math.cbrt (rand 2%nat) * radius) with r by (unfold r; ring).
  assert (Hc : -1 <= c <= 1) by (unfold c; lra).
  unfold Math.cos, Math.sin.
  rewrite (cos_acos c Hc), (sin_acos c Hc).
  split; [reflexivity|].
  set (theta := 2 * Math.PI * rand 0%nat).
  assert (Hroot : R_sqrt.sqrt (1 - Rsqr c) * R_sqrt.sqrt (1 - Rsqr c) = 1 - c * c).
  { rewrite sqrt_sqrt; [reflexivity|]. unfold Rsqr. nra. }
  assert (Htrig := sin2_cos2 theta). unfold Rsqr in Htrig.
  replace (r * R_sqrt.sqrt (1 - Rsqr c) * cos theta
             * (r * R_sqrt.sqrt (1 - Rsqr c) * cos theta)
           + r * R_sqrt.sqrt (1 - Rsqr c) * sin theta
             * (r * R_sqrt.sqrt (1 - Rsqr c) * sin theta))
    with (r * r * (R_sqrt.sqrt (1 - Rsqr c) * R_sqrt.sqrt (1 - Rsqr c))
          * (sin theta * sin theta + cos theta * cos theta)) by ring.
  rewrite Hroot, Htrig. ring.
Qed.

Lemma scatter_sample_height_is_affine_in_draw_witness :
  exists p,
    getScatterPosition 15 (fun _ => 0) = Some p
    /\ p.2 = 15 * Math.cbrt 0 * (2 * 0 - 1)
    /\ p.1.1 * p.1.1 + p.1.2 * p.1.2
       = 15 * Math.cbrt 0 * (15 * Math.cbrt 0) * (1 - (2 * 0 - 1) * (2 * 0 - 1)).
Proof.
  refine (scatter_sample_height_is_affine_in_draw 15 (fun _ => 0) _). lra.
Defined.

End SamplerShapes.

(** ** Easing curves *)
Section Easings.

Lemma smoothstep_monotone p q :
  0 <= p <= q -> q <= 1 ->
  Ornaments.smoothstep p <= Ornaments.smoothstep q.
Proof.
  intros Hp Hq. unfold Ornaments.smoothstep.
  assert (Hfactor : 0 <= 3 * (q + p) - 2 * (q * q + q * p + p * p)).
  { assert (H1 : 0 <= q * (1 - p)) by (apply Rmult_le_pos; lra).
    assert (H2 : 0 <= p * (1 - q)) by (apply Rmult_le_pos; lra).
    assert (H3 : 0 <= q * (1 - q)) by (apply Rmult_le_pos; lra).
    assert (H4 : 0 <= p * (1 - p)) by (apply Rmult_le_pos; lra).
    lra. }
  assert (Hdiff : 0 <= (q - p) * (3 * (q + p) - 2 * (q * q + q * p + p * p)))
    by (apply Rmult_le_pos; lra).
  lra.
Qed.

(** X8: the ribbons and the ornaments ease the progress by the same curve
    [p^2 (3 - 2 p)].  On [[0,1]] it is non-decreasing, runs from 0 to 1 and
    stays in [[0,1]], and it is symmetric about the midpoint:
    [ease (1 - p) = 1 - ease p]. *)
Theorem smoothstep_shape (p q : R) (Hp : 0 <= p <= q) (Hq : q <= 1) :
  Ribbons.easing p = Ornaments.smoothstep p
  /\ Ornaments.smoothstep 0 = 0
  /\ Ornaments.smoothstep 1 = 1
  /\ 0 <= Ornaments.smoothstep p <= Ornaments.smoothstep q
  /\ Ornaments.smoothstep q <= 1
  /\ Ornaments.smoothstep (1 - p) = 1 - Ornaments.smoothstep p.
Proof.
  assert (H0 : Ornaments.smoothstep 0 = 0) by (unfold Ornaments.smoothstep; lra).
  assert (H1 : Ornaments.smoothstep 1 = 1) by (unfold Ornaments.smoothstep; lra).
  split; [reflexivity|]. split; [exact H0|]. split; [exact H1|].
  split; [split|split].
  - rewrite <- H0. apply smoothstep_monotone; lra.
  - apply smoothstep_monotone; assumption.
  - rewrite <- H1. apply smoothstep_monotone; lra.
  - unfold Ornaments.smoothstep. ring.
Qed.

Lemma smoothstep_shape_witness :
  0 <= Ornaments.smoothstep (1 / 4) <= Ornaments.smoothstep (3 / 4).
Proof.
  refine (proj1 (proj2 (proj2 (proj2
            (smoothstep_shape (1 / 4) (3 / 4) _ _))))); lra.
Defined.

Lemma cube_monotone a b : 0 <= a <= b -> a * a * a <= b * b * b.
Proof.
  intros H.
  assert (H1 : a * a <= b * b) by nra.
  assert (H2 : 0 <= a * a) by nra.
  nra.
Qed.

Lemma easeInOutCubic_low p :
  p < 0.5 -> StarTopper.easeInOutCubic p = 4 * p * p * p.
Proof.
  intros Hp. unfold StarTopper.easeInOutCubic.
  destruct Rlt_dec; [reflexivity|lra].
Qed.

Lemma easeInOutCubic_high p :
  0.5 <= p ->
  StarTopper.easeInOutCubic p
  = 1 - 4 * ((1 - p) * (1 - p) * (1 - p)).
Proof.
  intros Hp. unfold StarTopper.easeInOutCubic.
  destruct Rlt_dec; [lra|]. simpl. field.
Qed.

Lemma easeInOutCubic_monotone p q :
  0 <= p <= q -> q <= 1 ->
  StarTopper.easeInOutCubic p <= StarTopper.easeInOutCubic q.
Proof.
  intros Hp Hq.
  destruct (Rlt_dec p 0.5) as [Hpl | Hph]; destruct (Rlt_dec q 0.5) as [Hql | Hqh].
  - rewrite !easeInOutCubic_low by assumption.
    assert (H := cube_monotone p q Hp). lra.
  - rewrite easeInOutCubic_low, easeInOutCubic_high by lra.
    assert (H1 := cube_monotone p 0.5 ltac:(lra)).
    assert (H2 := cube_monotone (1 - q) 0.5 ltac:(lra)). lra.
  - lra.
  - rewrite !easeInOutCubic_high by lra.
    assert (H := cube_monotone (1 - q) (1 - p) ltac:(lra)). lra.
Qed.

(** X9: the topper's cubic ease-in-out is continuous across its branch
    point (both branches give [1/2] at [1/2]), non-decreasing on [[0,1]],
    runs from 0 to 1 and stays in [[0,1]], and is symmetric about the
    midpoint. *)
Theorem easeInOutCubic_shape (p q : R) (Hp : 0 <= p <= q) (Hq : q <= 1) :
  StarTopper.easeInOutCubic 0 = 0
  /\ StarTopper.easeInOutCubic 1 = 1
  /\ StarTopper.easeInOutCubic 0.5 = 0.5
  /\ 4 * 0.5 * 0.5 * 0.5 = StarTopper.easeInOutCubic 0.5
  /\ 0 <= StarTopper.easeInOutCubic p <= StarTopper.easeInOutCubic q
  /\ StarTopper.easeInOutCubic q <= 1
  /\ StarTopper.easeInOutCubic (1 - p) = 1 - StarTopper.easeInOutCubic p.
Proof.
  assert (H0 : StarTopper.easeInOutCubic 0 = 0)
    by (rewrite easeInOutCubic_low; lra).
  assert (H1 : StarTopper.easeInOutCubic 1 = 1)
    by (rewrite easeInOutCubic_high; lra).
  assert (Hhalf : StarTopper.easeInOutCubic 0.5 = 0.5)
    by (rewrite easeInOutCubic_high; lra).
  split; [exact H0|]. split; [exact H1|]. split; [exact Hhalf|].
  split; [rewrite Hhalf; lra|].
  split; [split|split].
  - rewrite <- H0. apply easeInOutCubic_monotone; lra.
  - apply easeInOutCubic_monotone; assumption.
  - rewrite <- H1. apply easeInOutCubic_monotone; lra.
  - destruct (Rlt_dec p 0.5) as [Hlow | Hhigh].
    + rewrite (easeInOutCubic_low p Hlow), easeInOutCubic_high by lra.
      ring.
    + destruct (Rlt_dec (1 - p) 0.5) as [Hlow' | Hhigh'].
      * rewrite (easeInOutCubic_low (1 - p) Hlow'), easeInOutCubic_high by lra.
        ring.
      * assert (Hp' : p = 0.5) by lra. subst p.
        replace (1 - 0.5) with 0.5 by lra. rewrite Hhalf. lra.
Qed.

Lemma easeInOutCubic_shape_witness :
  0 <= StarTopper.easeInOutCubic (1 / 4) <= StarTopper.easeInOutCubic (3 / 4).
Proof.
  refine (proj1 (proj2 (proj2 (proj2 (proj2
            (easeInOutCubic_shape (1 / 4) (3 / 4) _ _)))))); lra.
Defined.

End Easings.

(** ** Rigid topper *)
Section Topper.
Import StarTopper.

(** X10: for a progress in [[0,1]], whatever the time, the topper frame
    puts the group on the segment from its scatter point to its tree anchor
    at the eased parameter, scales it uniformly by a factor between 0.19
    and 0.6825, wobbles it about z by at most [0.1 (1 - t)], and spins it
    about y at a speed between 0.5 and 2; the x rotation is left as it was.
    At progress 1 the group sits on the anchor without wobble and spins at
    0.5. *)
Theorem topper_frame_is_bounded
    (posScatter anchor : THREE.Vector3) (time progress : R) (g : Group)
    (Hprogress : 0 <= progress <= 1) :
  let t := easeInOutCubic progress in
  let g' := useFrame posScatter anchor time progress g in
  0 <= t <= 1
  /\ position g' = lerpVectors posScatter anchor t
  /\ THREE.x (scale g') = THREE.y (scale g')
  /\ THREE.y (scale g') = THREE.z (scale g')
  /\ 0.19 <= THREE.x (scale g') <= 0.6825
  /\ THREE.x (rotation g') = THREE.x (rotation g)
  /\ Rabs (THREE.z (rotation g')) <= 0.1 * (1 - t)
  /\ (exists spinSpeed,
        0.5 <= spinSpeed <= 2 /\ THREE.y (rotation g') = time * spinSpeed)
  /\ position (useFrame posScatter anchor time 1 g) = anchor
  /\ THREE.z (rotation (useFrame posScatter anchor time 1 g)) = 0
  /\ THREE.y (rotation (useFrame posScatter anchor time 1 g)) = time * 0.5.
Proof.
  intros t g'.
  assert (H0 : easeInOutCubic 0 = 0) by (rewrite easeInOutCubic_low; lra).
  assert (H1 : easeInOutCubic 1 = 1) by (rewrite easeInOutCubic_high; lra).
  assert (Ht : 0 <= t <= 1).
  { unfold t.
    assert (Hlow := easeInOutCubic_monotone 0 progress ltac:(lra) ltac:(lra)).
    assert (Hhigh := easeInOutCubic_monotone progress 1 ltac:(lra) ltac:(lra)).
    lra. }
  split; [exact Ht|]. split; [reflexivity|].
  split; [reflexivity|]. split; [reflexivity|].
  split.
  { unfold g', useFrame. cbn [scale THREE.x]. fold t.
    unfold THREE.MathUtils.lerp, Math.sin.
    assert (Hsin := SIN_bound (time * 2)).
    set (s := sin (time * 2)) in *.
    assert (Hbase : 0.2 <= (1 - t) * 0.2 + t * 0.65 <= 0.65) by lra.
    assert (Hpulse : 0.95 <= 1 + s * 0.05 <= 1.05) by lra.
    nra. }
  split; [reflexivity|].
  split.
  { unfold g', useFrame. cbn [rotation THREE.z]. fold t. unfold Math.sin.
    assert (Hsin := SIN_bound (time * 0.5)).
    apply Rabs_le. set (s := sin (time * 0.5)) in *. nra. }
  split.
  { exists (THREE.MathUtils.lerp 2.0 0.5 t). split; [|reflexivity].
    unfold THREE.MathUtils.lerp. lra. }
  unfold useFrame. cbn [position rotation THREE.y THREE.z]. rewrite H1.
  split.
  { unfold lerpVectors. destruct anchor as [ax ay az]. cbn [THREE.x THREE.y THREE.z].
    f_equal; ring. }
  split; [lra|]. unfold THREE.MathUtils.lerp. lra.
Qed.

Lemma topper_frame_is_bounded_witness :
  0.19
  <= THREE.x (scale (useFrame (THREE.mkVector3 20 0 0) posTree 3 0.5
                       {| position := THREE.mkVector3 0 0 0;
                          rotation := THREE.mkVector3 0 0 0;
                          scale := THREE.mkVector3 1 1 1 |}))
  <= 0.6825.
Proof.
  refine (proj1 (proj2 (proj2 (proj2 (proj2
    (topper_frame_is_bounded (THREE.mkVector3 20 0 0) posTree 3 0.5
       {| position := THREE.mkVector3 0 0 0;
          rotation := THREE.mkVector3 0 0 0;
          scale := THREE.mkVector3 1 1 1 |} _)))))).
  lra.
Defined.

End Topper.

(** ** Ribbon set-up *)
Section RibbonSetup.
Import THREE Ribbons.

Lemma write_four (done rest : list R) (a b c d a' b' c' d' : R) n :
  List.length done = n ->
  <[(n + 3)%nat := d']> (<[(n + 2)%nat := c']>
    (<[(n + 1)%nat := b']> (<[(n + 0)%nat := a']>
      (done ++ a :: b :: c :: d :: rest))))
  = (done ++ [a'; b'; c'; d']) ++ rest.
Proof.
  intros <-. rewrite <- app_assoc.
  rewrite !insert_app_r. reflexivity.
Qed.

Lemma flat_map_snoc {A B : Type} (f : A -> list B) (l : list A) (a : A) :
  flat_map f (l ++ [a]) = flat_map f l ++ f a.
Proof. rewrite flat_map_app. simpl. rewrite app_nil_r. reflexivity. Qed.

Lemma sampleUVs_prefix_length segments k :
  List.length (flat_map (sampleUVs segments) (seq 0 k)) = (4 * k)%nat.
Proof.
  induction k as [|k IH]; [reflexivity|].
  rewrite seq_S, flat_map_snoc, length_app, IH. simpl. lia.
Qed.

(** What the set-up loop leaves in the uv array and the index list. *)
Lemma layout_loop_result props :
  (1 <= segments props)%nat ->
  for_each (layoutStep props) (seq 0 (S (segments props)))
    (replicate ((segments props + 1) * 2 * 2) 0, [])
  = Some (flat_map (sampleUVs (segments props)) (seq 0 (S (segments props))),
          flat_map segmentTriangles (seq 0 (segments props))).
Proof.
  intros Hseg. set (N := segments props).
  assert (Hnz : INR N <> 0) by (apply not_0_INR; lia).
  destruct (for_each_invariant
    (fun k (st : list R * list nat) =>
       st.1 = flat_map (sampleUVs N) (seq 0 k) ++ replicate (4 * (S N - k)) 0
       /\ st.2 = flat_map segmentTriangles (seq 0 (Nat.min k N)))
    (layoutStep props) (S N) 0 (replicate ((N + 1) * 2 * 2) 0, []))
    as ([uvs indices] & Hloop & Huv & Hidx).
  { cbn [fst snd seq flat_map app]. split; [f_equal; lia|reflexivity]. }
  { intros i [uvs indices] Hi [Huv Hidx]. cbn [fst snd] in Huv, Hidx.
    unfold layoutStep. fold N. rewrite fdiv_Some by exact Hnz.
    cbn [mbind option_bind]. eexists. split; [reflexivity|]. cbn [fst snd].
    split.
    - rewrite Huv.
      replace (4 * (S N - i))%nat with (S (S (S (S (4 * (S N - S i)))))) by lia.
      cbn [replicate].
      replace (i * 4 + 0)%nat with (4 * i + 0)%nat by lia.
      replace (i * 4 + 1)%nat with (4 * i + 1)%nat by lia.
      replace (i * 4 + 2)%nat with (4 * i + 2)%nat by lia.
      replace (i * 4 + 3)%nat with (4 * i + 3)%nat by lia.
      rewrite write_four by apply sampleUVs_prefix_length.
      rewrite seq_S, flat_map_snoc. reflexivity.
    - destruct (Nat.ltb_spec i N) as [Hlt | Hge].
      + rewrite Hidx, Nat.min_l, Nat.min_l by lia.
        rewrite seq_S, flat_map_snoc. reflexivity.
      + rewrite Hidx. f_equal. f_equal. lia. }
  fold N. rewrite Hloop. cbn [fst snd] in Huv, Hidx.
  rewrite Nat.sub_diag in Huv. cbn [Nat.mul replicate] in Huv.
  rewrite app_nil_r in Huv. rewrite Nat.min_r in Hidx by lia.
  subst. reflexivity.
Qed.

Lemma useLayoutEffect_contents props mounted :
  (1 <= segments props)%nat ->
  useLayoutEffect props mounted
  = Some {| position :=
              Some (mkBufferAttribute
                      (replicate ((segments props + 1) * 2 * 3) 0) 3);
            uv :=
              Some (mkBufferAttribute
                      (flat_map (sampleUVs (segments props))
                                (seq 0 (S (segments props)))) 2);
            index :=
              Some (flat_map segmentTriangles (seq 0 (segments props)));
            normal := normal mounted |}.
Proof.
  intros Hseg. unfold useLayoutEffect.
  rewrite (layout_loop_result props Hseg). reflexivity.
Qed.

(** X11: for [N >= 1] segments the index buffer lists, segment after
    segment, the triangles [(2i, 2i+1, 2i+2)] and [(2i+1, 2i+3, 2i+2)]; every
    index refers to one of the [2 (N + 1)] vertices, and the first and the
    last vertex are both referred to. *)
Theorem ribbon_index_buffer_is_in_range
    (props : RibbonProps) (mounted : Geometry)
    (Hsegments : (1 <= segments props)%nat) :
  exists geo0 indices,
    useLayoutEffect props mounted = Some geo0
    /\ index geo0 = Some indices
    /\ indices = flat_map segmentTriangles (seq 0 (segments props))
    /\ Forall (fun j => (j < 2 * (segments props + 1))%nat) indices
    /\ In 0%nat indices
    /\ In (2 * segments props + 1)%nat indices.
Proof.
  eexists _, _. split; [apply useLayoutEffect_contents, Hsegments|].
  cbn [index]. split; [reflexivity|]. split; [reflexivity|].
  split; [|split].
  - apply Forall_forall. intros j Hj.
    apply list_elem_of_In, in_flat_map in Hj. destruct Hj as (i & Hi & Hj).
    apply in_seq in Hi. unfold segmentTriangles in Hj. simpl in Hj.
    intuition lia.
  - apply in_flat_map. exists 0%nat. split; [apply in_seq; lia|].
    simpl. auto.
  - apply in_flat_map. exists (segments props - 1)%nat.
    split; [apply in_seq; lia|].
    unfold segmentTriangles.
    replace (2 * segments props + 1)%nat
      with ((segments props - 1) * 2 + 3)%nat by lia.
    simpl. auto 6.
Qed.

Lemma ribbon_index_buffer_is_in_range_witness :
  exists geo0 indices,
    useLayoutEffect sampleProps emptyGeometry = Some geo0
    /\ index geo0 = Some indices
    /\ indices = flat_map segmentTriangles (seq 0 1)
    /\ Forall (fun j => (j < 2 * (1 + 1))%nat) indices
    /\ In 0%nat indices
    /\ In (2 * 1 + 1)%nat indices.
Proof.
  refine (ribbon_index_buffer_is_in_range sampleProps emptyGeometry _).
  simpl. lia.
Defined.

(** X12: for [N >= 1] segments the uv buffer holds, for every path index
    [i], the pair [(0, i/N)] for the left vertex and [(1, i/N)] for the right
    one; every coordinate lies in [[0,1]], so [v] runs from 0 at the first
    sample to 1 at the last. *)
Theorem ribbon_uv_buffer_spans_unit_square
    (props : RibbonProps) (mounted : Geometry)
    (Hsegments : (1 <= segments props)%nat) :
  exists geo0 uvs,
    useLayoutEffect props mounted = Some geo0
    /\ uv geo0 = Some (mkBufferAttribute uvs 2)
    /\ uvs = flat_map (sampleUVs (segments props)) (seq 0 (S (segments props)))
    /\ List.length uvs = (2 * (2 * (segments props + 1)))%nat
    /\ Forall (fun a => 0 <= a <= 1) uvs
    /\ sampleUVs (segments props) 0 = [0; 0; 1; 0]
    /\ sampleUVs (segments props) (segments props) = [0; 1; 1; 1].
Proof.
  assert (Hpos : 0 < INR (segments props)) by (apply lt_0_INR; lia).
  eexists _, _. split; [apply useLayoutEffect_contents, Hsegments|].
  cbn [uv]. split; [reflexivity|]. split; [reflexivity|].
  split; [rewrite sampleUVs_prefix_length; lia|].
  split; [|split].
  - apply Forall_forall. intros a Ha.
    apply list_elem_of_In, in_flat_map in Ha. destruct Ha as (i & Hi & Ha).
    apply in_seq in Hi.
    assert (Hfrac : 0 <= INR i / INR (segments props) <= 1).
    { assert (Hi' : INR i <= INR (segments props)) by (apply le_INR; lia).
      assert (H0 := pos_INR i).
      split.
      - apply Rmult_le_pos; [exact H0|]. left. apply Rinv_0_lt_compat, Hpos.
      - apply (Rmult_le_reg_r (INR (segments props))); [exact Hpos|].
        unfold Rdiv. rewrite Rmult_assoc, Rinv_l by lra. lra. }
    unfold sampleUVs in Ha. simpl in Ha.
    destruct Ha as [<- | [<- | [<- | [<- | []]]]]; lra.
  - unfold sampleUVs. simpl INR. do 2 f_equal; [lra|]. do 2 f_equal. lra.
  - unfold sampleUVs.
    replace (INR (segments props) / INR (segments props)) with 1
      by (field; lra).
    reflexivity.
Qed.

Lemma ribbon_uv_buffer_spans_unit_square_witness :
  exists geo0 uvs,
    useLayoutEffect sampleProps emptyGeometry = Some geo0
    /\ uv geo0 = Some (mkBufferAttribute uvs 2)
    /\ uvs = flat_map (sampleUVs 1) (seq 0 2)
    /\ List.length uvs = (2 * (2 * (1 + 1)))%nat
    /\ Forall (fun a => 0 <= a <= 1) uvs
    /\ sampleUVs 1 0 = [0; 0; 1; 0]
    /\ sampleUVs 1 1 = [0; 1; 1; 1].
Proof.
  refine (ribbon_uv_buffer_spans_unit_square sampleProps emptyGeometry _).
  simpl. lia.
Defined.

(** X13: a ribbon of zero segments has no valid set-up: the first turn of
    every construction loop divides 0 by 0, so neither the paths nor the
    geometry come out finite. *)
Theorem ribbon_without_segments_is_not_finite
    (getPoint : list Vector3 -> R -> Vector3)
    (props : RibbonProps) (mounted : Geometry) (rand : nat -> R)
    (Hsegments : segments props = 0%nat) :
  treePoint props 0 = None
  /\ makePaths getPoint props rand = None
  /\ useLayoutEffect props mounted = None.
Proof.
  assert (Hpoint : treePoint props 0 = None).
  { unfold treePoint. rewrite Hsegments. simpl INR. rewrite fdiv_zero.
    reflexivity. }
  split; [exact Hpoint|]. split.
  - unfold makePaths. rewrite Hsegments. cbn [seq for_each].
    rewrite Hpoint. reflexivity.
  - unfold useLayoutEffect. rewrite Hsegments. cbn [seq for_each].
    unfold layoutStep. rewrite Hsegments. simpl INR. rewrite fdiv_zero.
    reflexivity.
Qed.

Lemma ribbon_without_segments_is_not_finite_witness :
  useLayoutEffect
    {| width := 0.6; segments := 0; radius := 6; turns := 3.5; yStart := -5;
       yEnd := 7; phaseOffset := 0; scatterRadius := 15 |} emptyGeometry
  = None.
Proof.
  refine (proj2 (proj2
    (ribbon_without_segments_is_not_finite (fun _ _ => mkVector3 0 0 0)
       {| width := 0.6; segments := 0; radius := 6; turns := 3.5; yStart := -5;
          yEnd := 7; phaseOffset := 0; scatterRadius := 15 |}
       emptyGeometry (fun _ => 0) _))).
  reflexivity.
Defined.

End RibbonSetup.

(** ** Ribbon paths *)
Section RibbonPaths.
Import THREE Ribbons.

Lemma treePoint_Some props i :
  segments props <> 0%nat -> yEnd props <> yStart props ->
  let t := INR i / INR (segments props) in
  treePoint props i
  = Some (mkVector3
            (Math.cos (t * Math.PI * 2 * turns props + phaseOffset props)
             * (radius props + t * (0.5 - radius props)))
            (yStart props + t * (yEnd props - yStart props))
            (Math.sin (t * Math.PI * 2 * turns props + phaseOffset props)
             * (radius props + t * (0.5 - radius props)))).
Proof.
  intros Hseg Hy t.
  assert (Hnz : INR (segments props) <> 0) by (apply not_0_INR; exact Hseg).
  unfold treePoint. rewrite fdiv_Some by exact Hnz. cbn [mbind option_bind].
  fold t. rewrite fdiv_Some by lra. cbn [mbind option_bind].
  unfold MathUtils.lerp.
  replace (((1 - t) * yStart props + t * yEnd props - yStart props)
           / (yEnd props - yStart props)) with t by (field; lra).
  do 2 f_equal; ring.
Qed.

(** X14: for [N >= 1] segments and [yEnd <> yStart], sample [i <= N] of the
    tree path lies at the fraction [t = i/N] of the way up from [yStart] to
    [yEnd], on a circle about the axis whose radius tapers linearly from
    [radius] at the first sample to 0.5 at the last, at the angle
    [2 pi turns t + phaseOffset].  When [yEnd = yStart] no sample is finite
    (0 divided by 0). *)
Theorem ribbon_tree_path_is_a_tapered_helix
    (props : RibbonProps) (i : nat)
    (Hsegments : (1 <= segments props)%nat)
    (Hy : yEnd props <> yStart props)
    (Hi : (i <= segments props)%nat) :
  let t := INR i / INR (segments props) in
  let rho := radius props + t * (0.5 - radius props) in
  let angle := t * Math.PI * 2 * turns props + phaseOffset props in
  0 <= t <= 1
  /\ treePoint props i
     = Some (mkVector3 (Math.cos angle * rho)
                       (yStart props + t * (yEnd props - yStart props))
                       (Math.sin angle * rho))
  /\ (Math.cos angle * rho) * (Math.cos angle * rho)
     + (Math.sin angle * rho) * (Math.sin angle * rho) = rho * rho
  /\ (i = 0%nat -> t = 0 /\ rho = radius props)
  /\ (i = segments props -> t = 1 /\ rho = 0.5)
  /\ (forall props',
        segments props' = segments props -> yEnd props' = yStart props' ->
        treePoint props' i = None).
Proof.
  intros t rho angle.
  assert (Hpos : 0 < INR (segments props)) by (apply lt_0_INR; lia).
  assert (Ht : 0 <= t <= 1).
  { unfold t. assert (Hi' : INR i <= INR (segments props)) by (apply le_INR; lia).
    assert (H0 := pos_INR i). split.
    - apply Rmult_le_pos; [exact H0|]. left. apply Rinv_0_lt_compat, Hpos.
    - apply (Rmult_le_reg_r (INR (segments props))); [exact Hpos|].
      unfold Rdiv. rewrite Rmult_assoc, Rinv_l by lra. lra. }
  split; [exact Ht|]. split; [apply treePoint_Some; [lia|exact Hy]|].
  split.
  { assert (Htrig := sin2_cos2 angle). unfold Rsqr in Htrig.
    unfold Math.cos, Math.sin.
    replace (cos angle * rho * (cos angle * rho) + sin angle * rho * (sin angle * rho))
      with (rho * rho * (sin angle * sin angle + cos angle * cos angle)) by ring.
    rewrite Htrig. ring. }
  split; [|split].
  - intros ->. assert (Hzero : t = 0) by (unfold t; simpl INR; lra).
    split; [exact Hzero|]. unfold rho. rewrite Hzero. lra.
  - intros ->. assert (Hone : t = 1) by (unfold t; field; lra).
    split; [exact Hone|]. unfold rho. rewrite Hone. lra.
  - intros props' Hseg' Hy'. unfold treePoint. rewrite Hseg'.
    rewrite fdiv_Some by lra. cbn [mbind option_bind].
    rewrite Hy', Rminus_diag, fdiv_zero. reflexivity.
Qed.

Lemma ribbon_tree_path_is_a_tapered_helix_witness :
  treePoint sampleProps 1
  = Some (mkVector3
            (Math.cos (INR 1 / INR 1 * Math.PI * 2 * 3.5 + 0)
             * (6 + INR 1 / INR 1 * (0.5 - 6)))
            (-5 + INR 1 / INR 1 * (7 - -5))
            (Math.sin (INR 1 / INR 1 * Math.PI * 2 * 3.5 + 0)
             * (6 + INR 1 / INR 1 * (0.5 - 6)))).
Proof.
  refine (proj1 (proj2
    (ribbon_tree_path_is_a_tapered_helix sampleProps 1 _ _ _))).
  - simpl. lia.
  - simpl. lra.
  - simpl. lia.
Defined.




End RibbonPaths.

(** ** Ribbon frames *)
Section RibbonFrame.
Import THREE Ribbons.

Lemma easing_one : easing 1 = 1.
Proof. unfold easing. lra. Qed.

Lemma easing_zero : easing 0 = 0.
Proof. unfold easing. lra. Qed.

(** X16: the blended centre at a path index is the plain blend of the
    scatter and tree samples by [t] plus, per coordinate, a sinusoid of
    amplitude [1.5 (1 - t)^2]: the noise is scaled by [1 - t] and then
    blended by [1 - t] once more.  At progress 1 the centre is the tree
    sample itself; at progress 0 it is the scatter sample displaced by at
    most 1.5 per coordinate. *)
Theorem ribbon_centre_noise_is_quadratic
    (props : RibbonProps) (paths : Paths) (t time : R) (i : nat)
    (s tr : Vector3)
    (Hs : scatterPath paths !! i = Some s)
    (Htr : treePath paths !! i = Some tr) :
  let a := 1.5 * ((1 - t) * (1 - t)) in
  exists c,
    center props paths t time i = Some c
    /\ x c = MathUtils.lerp (x s) (x tr) t
             + a * Math.sin (time * 0.5 + INR i * 0.1 + phaseOffset props)
    /\ y c = MathUtils.lerp (y s) (y tr) t
             + a * Math.cos (time * 0.3 + INR i * 0.1)
    /\ z c = MathUtils.lerp (z s) (z tr) t
             + a * Math.sin (time * 0.4 + INR i * 0.05)
    /\ Rabs (x c - MathUtils.lerp (x s) (x tr) t) <= a
    /\ Rabs (y c - MathUtils.lerp (y s) (y tr) t) <= a
    /\ Rabs (z c - MathUtils.lerp (z s) (z tr) t) <= a
    /\ center props paths (easing 1) time i = Some tr.
Proof.
  intros a. unfold center. rewrite Hs, Htr. cbn [mbind option_bind].
  eexists. split; [reflexivity|]. cbn [x y z]. unfold MathUtils.lerp.
  assert (Ha : 0 <= a).
  { assert (Hsq := Rle_0_sqr (1 - t)). unfold Rsqr in Hsq. unfold a. lra. }
  assert (Hbound : forall u, -1 <= u <= 1 -> forall b v, v = b + a * u ->
                   Rabs (v - b) <= a).
  { intros u Hu b v ->. apply Rabs_le.
    replace (b + a * u - b) with (a * u) by ring.
    assert (H1 : 0 <= a * (1 - u)) by (apply Rmult_le_pos; lra).
    assert (H2 : 0 <= a * (1 + u)) by (apply Rmult_le_pos; lra).
    lra. }
  assert (Hx : forall u p q,
    (1 - t) * (p + u * (1.0 - t) * 1.5) + t * q
    = (1 - t) * p + t * q + a * u) by (intros; unfold a; lra).
  split; [apply Hx|]. split; [apply Hx|]. split; [apply Hx|].
  split; [eapply Hbound; [apply SIN_bound|apply Hx]|].
  split; [eapply Hbound; [apply COS_bound|apply Hx]|].
  split; [eapply Hbound; [apply SIN_bound|apply Hx]|].
  rewrite easing_one. destruct tr as [tx ty tz]. cbn [x y z].
  do 2 f_equal; lra.
Qed.

Lemma ribbon_centre_noise_is_quadratic_witness :
  center sampleProps samplePaths (easing 1) 0 1 = Some (mkVector3 (-0.5) 7 0).
Proof.
  destruct (ribbon_centre_noise_is_quadratic sampleProps samplePaths 0.5 0 1
              (mkVector3 1 2 3) (mkVector3 (-0.5) 7 0) eq_refl eq_refl)
    as (c & _ & _ & _ & _ & _ & _ & _ & Hone).
  exact Hone.
Defined.

(** Reading back a vertex that sits behind a known prefix. *)
Lemma getXYZ_block (pre post : list R) (a b c : R) (v : nat) :
  List.length pre = (3 * v)%nat ->
  getXYZ (mkBufferAttribute (pre ++ a :: b :: c :: post) 3) v
  = Some (mkVector3 a b c).
Proof.
  intros Hlen. unfold getXYZ. cbn [array itemSize].
  replace (v * 3 + 0)%nat with (List.length pre + 0)%nat by lia.
  replace (v * 3 + 1)%nat with (List.length pre + 1)%nat by lia.
  replace (v * 3 + 2)%nat with (List.length pre + 2)%nat by lia.
  rewrite !lookup_app_r by lia.
  replace (List.length pre + 0 - List.length pre)%nat with 0%nat by lia.
  replace (List.length pre + 1 - List.length pre)%nat with 1%nat by lia.
  replace (List.length pre + 2 - List.length pre)%nat with 2%nat by lia.
  reflexivity.
Qed.

Lemma stripPrefix_split props paths t time i n :
  (i < n)%nat ->
  stripPrefix props paths t time n
  = stripPrefix props paths t time i
    ++ stripEntries props paths t time i
    ++ flat_map (stripEntries props paths t time) (seq (S i) (n - S i)).
Proof.
  intros Hi. unfold stripPrefix.
  replace n with (i + S (n - S i))%nat at 1 by lia.
  rewrite seq_app, flat_map_app. reflexivity.
Qed.

(** X17: after a frame, for every path index [i <= N], vertex [2 i] of
    the position attribute is the blended centre plus half the width along
    the frame's normal and vertex [2 i + 1] is the centre minus the same
    offset: the two vertices straddle the centre symmetrically. *)
Theorem ribbon_vertices_straddle_centre
    (vertexNormals : list R -> option (list nat) -> list R)
    (props : RibbonProps) (paths : Paths) (time progress : R) (geo : Geometry)
    (i : nat)
    (Hpaths : paths_ok props paths) (Hgeo : position_ok props geo)
    (Hi : (i <= segments props)%nat) :
  let t := easing progress in
  let h := width props * 0.5 in
  exists geo' posAttr c n,
    useFrame vertexNormals props paths time progress geo = Some geo'
    /\ position geo' = Some posAttr
    /\ center props paths t time i = Some c
    /\ normal_at props paths t time i = Some n
    /\ getXYZ posAttr (i * 2)
       = Some (mkVector3 (x c + x n * h) (y c + y n * h) (z c + z n * h))
    /\ getXYZ posAttr (i * 2 + 1)
       = Some (mkVector3 (x c - x n * h) (y c - y n * h) (z c - z n * h)).
Proof.
  intros t h.
  destruct (center_Some props paths Hpaths t time i Hi) as [c Hc].
  destruct (normal_at_Some props paths Hpaths t time i Hi) as [n Hn].
  eexists _, _, c, n. split; [apply useFrame_result; assumption|].
  cbn [position]. split; [reflexivity|]. split; [exact Hc|]. split; [exact Hn|].
  assert (Hlen := stripPrefix_length props paths Hpaths t time i ltac:(lia)).
  fold t.
  rewrite (stripPrefix_split props paths t time i (S (segments props))) by lia.
  assert (Hentries :
    stripEntries props paths t time i
    = [x c + x n * h; y c + y n * h; z c + z n * h;
       x c - x n * h; y c - y n * h; z c - z n * h]).
  { unfold stripEntries. rewrite Hc, Hn. reflexivity. }
  rewrite Hentries. split.
  - apply getXYZ_block. lia.
  - match goal with
    | |- getXYZ (mkBufferAttribute (?pre ++ [?a; ?b; ?d; ?e; ?f; ?g] ++ ?post) 3) _ = _ =>
        replace (pre ++ [a; b; d; e; f; g] ++ post)
          with ((pre ++ [a; b; d]) ++ e :: f :: g :: post)
          by (rewrite <- app_assoc; reflexivity)
    end.
    apply getXYZ_block. rewrite length_app. simpl. lia.
Qed.

Lemma ribbon_vertices_straddle_centre_witness :
  exists geo' posAttr c n,
    useFrame (fun _ _ => []) sampleProps samplePaths 0 0.5 (sampleGeometry 9)
    = Some geo'
    /\ position geo' = Some posAttr
    /\ center sampleProps samplePaths (easing 0.5) 0 0 = Some c
    /\ normal_at sampleProps samplePaths (easing 0.5) 0 0 = Some n
    /\ getXYZ posAttr (0 * 2)
       = Some (mkVector3 (x c + x n * (width sampleProps * 0.5))
                         (y c + y n * (width sampleProps * 0.5))
                         (z c + z n * (width sampleProps * 0.5)))
    /\ getXYZ posAttr (0 * 2 + 1)
       = Some (mkVector3 (x c - x n * (width sampleProps * 0.5))
                         (y c - y n * (width sampleProps * 0.5))
                         (z c - z n * (width sampleProps * 0.5))).
Proof.
  refine (ribbon_vertices_straddle_centre (fun _ _ => []) sampleProps
            samplePaths 0 0.5 (sampleGeometry 9) 0 _ _ _).
  - split; reflexivity.
  - eexists. split; [reflexivity|]. split; reflexivity.
  - simpl. lia.
Defined.

End RibbonFrame.

(** ** Ribbon frames: the normal and when the frame completes *)
Section RibbonNormal.
Import THREE Ribbons.

Lemma sum_squares_zero a b c :
  a * a + b * b + c * c = 0 -> a = 0 /\ b = 0 /\ c = 0.
Proof.
  intros H.
  assert (Ha := Rle_0_sqr a). assert (Hb := Rle_0_sqr b).
  assert (Hc := Rle_0_sqr c). unfold Rsqr in *.
  repeat split; apply Rsqr_0_uniq; unfold Rsqr; lra.
Qed.

(** A normalised vector has length 1, or is the zero vector it came from. *)
Lemma normalize_unit_or_zero v n :
  normalize v = Some n -> dot n n = 1 \/ n = mkVector3 0 0 0.
Proof.
  rewrite normalize_Some. intros Hn. injection Hn as <-.
  set (S := x v * x v + y v * y v + z v * z v).
  assert (HS : 0 <= S) by (unfold S; nra).
  unfold num_or. destruct Req_dec_T as [Hzero | Hnz].
  - right. apply sqrt_eq_0 in Hzero; [|exact HS].
    destruct (sum_squares_zero _ _ _ Hzero) as (Hx & Hy & Hz).
    unfold multiplyScalar. rewrite Hx, Hy, Hz. f_equal; ring.
  - left. unfold dot, multiplyScalar. cbn [x y z].
    assert (Hroot := sqrt_sqrt S HS).
    set (L := R_sqrt.sqrt S) in *.
    replace (x v * (1 / L) * (x v * (1 / L)) + y v * (1 / L) * (y v * (1 / L))
             + z v * (1 / L) * (z v * (1 / L)))
      with (S / (L * L)) by (unfold S; field; exact Hnz).
    rewrite Hroot. field. rewrite <- Hroot. nra.
Qed.

(** Turning a vector about a unit axis keeps its length. *)
Lemma applyAxisAngle_keeps_length v axis angle :
  dot axis axis = 1 ->
  dot (applyAxisAngle v axis angle) (applyAxisAngle v axis angle) = dot v v.
Proof.
  intros Haxis. unfold dot in *.
  unfold applyAxisAngle, applyQuaternion, setFromAxisAngle. cbn [x y z qx qy qz qw].
  unfold Math.sin, Math.cos.
  assert (Htrig := sin2_cos2 (angle / 2)). unfold Rsqr in Htrig.
  set (s := sin (angle / 2)) in *. set (c := cos (angle / 2)) in *.
  destruct v as [vx vy vz]. destruct axis as [ax ay az]. cbn [x y z] in *.
  assert (Hunit : ax * s * (ax * s) + ay * s * (ay * s) + az * s * (az * s) + c * c = 1).
  { replace (ax * s * (ax * s) + ay * s * (ay * s) + az * s * (az * s))
      with (s * s * (ax * ax + ay * ay + az * az)) by ring.
    rewrite Haxis. lra. }
  match goal with
  | |- ?lhs = ?rhs =>
      replace lhs with
        (rhs + 4 * (1 - (ax * s * (ax * s) + ay * s * (ay * s)
                         + az * s * (az * s) + c * c))
               * ((ax * s * vx + ay * s * vy + az * s * vz)
                  * (ax * s * vx + ay * s * vy + az * s * vz)
                  - (ax * s * (ax * s) + ay * s * (ay * s) + az * s * (az * s))
                    * (vx * vx + vy * vy + vz * vz))) by ring
  end.
  rewrite Hunit. ring.
Qed.

Lemma tangent_unit_or_zero props paths t time i tg :
  tangent_at props paths t time i = Some tg ->
  dot tg tg = 1 \/ tg = mkVector3 0 0 0.
Proof.
  unfold tangent_at. destruct (difference props paths t time i) as [d|];
    [|discriminate].
  cbn [mbind option_bind]. destruct (i =? segments props)%nat.
  - intros H. injection H as <-. left. unfold dot. cbn [x y z]. ring.
  - apply normalize_unit_or_zero.
Qed.

(** X18: at every path index and for every progress and time, the normal
    the two vertices are offset along is either of length 1, so that the
    strip is exactly [width] wide there, or the zero vector of a degenerate
    frame.  Where the twist angle is zero, as it is at progress 1 and at
    index 0, the normal is horizontal and perpendicular to the tangent: the
    assembled ribbon lies flat. *)
Theorem ribbon_normal_is_unit_or_zero
    (props : RibbonProps) (paths : Paths) (t time : R) (i : nat)
    (tg n : Vector3)
    (Htg : tangent_at props paths t time i = Some tg)
    (Hn : normal_at props paths t time i = Some n) :
  (dot n n = 1 \/ n = mkVector3 0 0 0)
  /\ (twistAngle t i = 0 -> y n = 0 /\ dot n tg = 0)
  /\ twistAngle (easing 1) i = 0
  /\ twistAngle t 0 = 0.
Proof.
  unfold normal_at in Hn. rewrite Htg in Hn. cbn [mbind option_bind] in Hn.
  destruct (normalize (crossVectors tg binormal)) as [n0|] eqn:Hn0;
    [|discriminate].
  cbn [mbind option_bind] in Hn.
  assert (Hunit0 := normalize_unit_or_zero _ _ Hn0).
  assert (Hflat : y n0 = 0 /\ dot n0 tg = 0).
  { rewrite normalize_Some in Hn0. injection Hn0 as <-.
    unfold dot, multiplyScalar, crossVectors, binormal. cbn [x y z].
    split; ring. }
  split; [|split; [|split]].
  - destruct Req_dec_T as [Htwist | Htwist]; injection Hn as <-;
      [exact Hunit0|].
    destruct Hunit0 as [Hone | ->]; [|right; apply applyAxisAngle_zero].
    destruct (tangent_unit_or_zero _ _ _ _ _ _ Htg) as [Htg1 | ->].
    + left. rewrite applyAxisAngle_keeps_length by exact Htg1. exact Hone.
    + exfalso. rewrite normalize_Some in Hn0. injection Hn0 as <-.
      unfold dot, multiplyScalar, crossVectors, binormal in Hone.
      cbn [x y z] in Hone. lra.
  - intros Htwist. destruct Req_dec_T as [_ | Hne]; [|contradiction].
    injection Hn as <-. exact Hflat.
  - unfold twistAngle. rewrite easing_one. ring.
  - unfold twistAngle. simpl INR. ring.
Qed.

Lemma ribbon_normal_is_unit_or_zero_witness :
  dot (mkVector3 0 0 0) (mkVector3 0 0 0) = 1
  \/ mkVector3 0 0 0 = mkVector3 0 0 0.
Proof.
  refine (proj1 (ribbon_normal_is_unit_or_zero sampleProps samplePaths
                   (easing 0.5) 0 1 (mkVector3 0 1 0) (mkVector3 0 0 0) _ _)).
  - apply tangent_at_last. split; reflexivity.
  - apply (normal_at_last sampleProps samplePaths). split; reflexivity.
Defined.

(** A loop fails when the turn for one of its indices fails in every
    state. *)
Lemma for_each_fails {St : Type} (body : nat -> St -> option St) (i : nat)
    (indices : list nat) :
  (forall st, body i st = None) -> In i indices ->
  forall s, for_each body indices s = None.
Proof.
  intros Hnone. induction indices as [|j rest IH]; intros Hin s; [destruct Hin|].
  cbn [for_each]. destruct (body j s) as [s'|] eqn:Hj; [|reflexivity].
  cbn [mbind option_bind]. destruct Hin as [-> | Hin].
  - rewrite Hnone in Hj. discriminate.
  - apply IH, Hin.
Qed.

Lemma step_Some_long props paths t time i st :
  (segments props < List.length (treePath paths))%nat ->
  (segments props < List.length (scatterPath paths))%nat ->
  (i <= segments props)%nat ->
  is_Some (step props paths t time i st).
Proof.
  intros Htree Hscatter Hi.
  assert (Hcenter : forall j, (j <= segments props)%nat ->
                    is_Some (center props paths t time j)).
  { intros j Hj. unfold center.
    destruct (lookup_lt_is_Some_2 (scatterPath paths) j ltac:(lia)) as [ps ->].
    destruct (lookup_lt_is_Some_2 (treePath paths) j ltac:(lia)) as [pt ->].
    cbn [mbind option_bind]. eauto. }
  assert (Htangent : is_Some (tangent_at props paths t time i)).
  { unfold tangent_at, difference.
    destruct (Hcenter i Hi) as [c ->]. cbn [mbind option_bind].
    destruct (Hcenter (Nat.min (i + 1) (segments props)) ltac:(lia)) as [n ->].
    cbn [mbind option_bind]. destruct (i =? segments props)%nat; [eauto|].
    rewrite normalize_Some. eauto. }
  assert (Hnormal : is_Some (normal_at props paths t time i)).
  { unfold normal_at. destruct Htangent as [tg ->]. cbn [mbind option_bind].
    rewrite normalize_Some. cbn [mbind option_bind].
    destruct Req_dec_T; eauto. }
  destruct st as [posAttr scratch]. unfold step.
  destruct (Hcenter i Hi) as [c ->]. destruct Htangent as [tg ->].
  destruct Hnormal as [n ->]. cbn [mbind option_bind]. eauto.
Qed.

(** X19: the ribbon frame throws in exactly two situations: the geometry
    has no position attribute yet (the set-up has not run), or one of the
    two paths has no sample at the last path index.  Otherwise it
    completes, whatever the size of the position buffer, since a write past
    the end of a typed array is ignored. *)
Theorem ribbon_frame_throws_iff
    (vertexNormals : list R -> option (list nat) -> list R)
    (props : RibbonProps) (paths : Paths) (time progress : R) (geo : Geometry) :
  useFrame vertexNormals props paths time progress geo = None
  <-> position geo = None
      \/ (List.length (treePath paths) <= segments props)%nat
      \/ (List.length (scatterPath paths) <= segments props)%nat.
Proof.
  set (t := easing progress).
  assert (Hshort :
    (List.length (treePath paths) <= segments props)%nat
    \/ (List.length (scatterPath paths) <= segments props)%nat ->
    forall st, step props paths t time (segments props) st = None).
  { intros Hlen [posAttr scratch]. unfold step, center.
    destruct Hlen as [Hlen | Hlen].
    - destruct (scatterPath paths !! segments props); [|reflexivity].
      cbn [mbind option_bind].
      rewrite (lookup_ge_None_2 (treePath paths) (segments props)) by lia.
      reflexivity.
    - rewrite (lookup_ge_None_2 (scatterPath paths) (segments props)) by lia.
      reflexivity. }
  split.
  - intros Hnone.
    destruct (position geo) as [posAttr|] eqn:Hpos; [|left; reflexivity].
    right.
    destruct (le_lt_dec (List.length (treePath paths)) (segments props))
      as [Htree | Htree]; [left; exact Htree|].
    destruct (le_lt_dec (List.length (scatterPath paths)) (segments props))
      as [Hscatter | Hscatter]; [right; exact Hscatter|].
    exfalso. unfold useFrame in Hnone. rewrite Hpos in Hnone.
    cbn -[for_each seq] in Hnone. fold t in Hnone.
    match type of Hnone with
    | context [for_each ?body ?indices ?s0] =>
        destruct (for_each_invariant (fun _ _ => True) body
                    (S (segments props)) 0 s0 I) as (out & Hout & _)
    end.
    { intros i st Hi _.
      destruct (step_Some_long props paths t time i st Htree Hscatter
                  ltac:(lia)) as [st' Hst'].
      exists st'. split; [exact Hst'|exact I]. }
    rewrite Hout in Hnone. discriminate.
  - intros [Hpos | Hlen]; unfold useFrame; [rewrite Hpos; reflexivity|].
    destruct (position geo) as [posAttr|]; [|reflexivity].
    cbn -[for_each seq]. fold t.
    rewrite (for_each_fails _ (segments props)); [reflexivity| |].
    + apply Hshort, Hlen.
    + apply in_seq. lia.
Qed.

End RibbonNormal.

(** ** Ornaments: the initial paint, the assembled state and the data *)
Section OrnamentExtras.
Import Ornaments.

(** A loop whose turns overwrite [tempObject] and store its matrix leaves
    the matrices of all items, in order. *)
Lemma forEach_stores_matrices {A : Type} (obj : A -> THREE.Object3D)
    (body : A -> nat -> State -> State) :
  (forall item i st,
     body item i st
     = {| tempObject := obj item;
          instanceMatrix :=
            THREE.setMatrixAt (instanceMatrix st) i (THREE.matrix (obj item)) |}) ->
  (forall item, length (THREE.matrix (obj item)) = 16%nat) ->
  forall data i st (done rest : list R),
    instanceMatrix st = done ++ rest ->
    length done = (i * 16)%nat ->
    length rest = (16 * length data)%nat ->
    instanceMatrix (forEach_from body i data st)
    = done ++ flat_map (fun item => THREE.matrix (obj item)) data.
Proof.
  intros Hbody Hsize.
  induction data as [|item data IH]; intros i st done rest Hst Hdone Hrest.
  - destruct rest; [|simpl in Hrest; lia]. simpl. exact Hst.
  - cbn [forEach_from flat_map]. rewrite Hbody.
    rewrite (IH (S i) _ (done ++ THREE.matrix (obj item)) (drop 16 rest)).
    + rewrite <- app_assoc. reflexivity.
    + cbn [instanceMatrix]. unfold THREE.setMatrixAt. rewrite Hst, <- Hdone.
      rewrite write_at_app by (rewrite Hsize; simpl in Hrest; lia).
      rewrite Hsize, app_assoc. reflexivity.
    + rewrite length_app, Hsize. lia.
    + rewrite length_drop. simpl in Hrest. lia.
Qed.

Lemma lerp_between a b t :
  0 <= t <= 1 ->
  Rmin a b <= THREE.MathUtils.lerp a b t <= Rmax a b.
Proof.
  intros Ht. unfold THREE.MathUtils.lerp.
  destruct (Rle_dec a b) as [Hab | Hab].
  - rewrite Rmin_left, Rmax_right by lra. nra.
  - rewrite Rmin_right, Rmax_left by lra. nra.
Qed.

Lemma useLayoutEffect_instanceMatrix data st :
  length (instanceMatrix st) = (16 * length data)%nat ->
  instanceMatrix (useLayoutEffect data st)
  = flat_map (fun item => restingMatrix item (scatterPosition item)) data.
Proof.
  intros Hlen. unfold useLayoutEffect.
  apply (forEach_stores_matrices
           (fun item =>
              THREE.mkObject3D
                (Vector3_of (scatterPosition item))
                (Vector3_of (rotation item))
                (THREE.setFromEuler (Vector3_of (rotation item)))
                (THREE.mkVector3 (scale item) (scale item) (scale item))
                (restingMatrix item (scatterPosition item)))
           _ ltac:(reflexivity) ltac:(reflexivity) data 0 st []
           (instanceMatrix st));
    [reflexivity|reflexivity|exact Hlen].
Qed.

(** X20: the initial paint stores, for every item, the transform that
    places it at its scatter position with its rotation seed and its scale.
    The first frame at progress 0 and time 0 then lifts the instance by
    [0.5 sin(phase)] from that painted position. *)
Theorem ornaments_are_painted_at_scatter_positions
    (data : list PositionData) (st : State) (i : nat) (item : PositionData)
    (Hbuffer : length (instanceMatrix st) = (16 * length data)%nat)
    (Hitem : data !! i = Some item) :
  THREE.getMatrixAt (instanceMatrix (useLayoutEffect data st)) i
  = restingMatrix item (scatterPosition item)
  /\ instancePosition (useLayoutEffect data st) i
     = Some (Vector3_of (scatterPosition item))
  /\ instancePosition (useFrame data 0 0 (useLayoutEffect data st)) i
     = Some (THREE.mkVector3
               (scatterPosition item).1.1
               ((scatterPosition item).1.2 + Math.sin (phase item) * 0.5)
               (scatterPosition item).2).
Proof.
  assert (Hblock :
    THREE.getMatrixAt (instanceMatrix (useLayoutEffect data st)) i
    = restingMatrix item (scatterPosition item)).
  { rewrite useLayoutEffect_instanceMatrix by exact Hbuffer.
    unfold THREE.getMatrixAt.
    apply (flat_map_block
             (fun item => restingMatrix item (scatterPosition item)) 16 data
             (fun a => eq_refl) i item Hitem). }
  split; [exact Hblock|]. split.
  - unfold instancePosition. rewrite Hblock. reflexivity.
  - rewrite (instancePosition_useFrame data 0 0 _ i item); [|
      rewrite useLayoutEffect_instanceMatrix by exact Hbuffer;
      apply flat_map_length_const; intros a; reflexivity | exact Hitem].
    rewrite itemPosition_scattered.
    replace (0 * speed item + phase item) with (phase item) by lra.
    reflexivity.
Qed.

Lemma ornaments_are_painted_at_scatter_positions_witness :
  instancePosition (useLayoutEffect [sampleItem] (sampleState 9)) 0
  = Some (THREE.mkVector3 0 0 0).
Proof.
  refine (proj1 (proj2
    (ornaments_are_painted_at_scatter_positions [sampleItem] (sampleState 9)
       0 sampleItem _ _))); reflexivity.
Defined.

Lemma itemObject_assembled item time :
  THREE.matrix (itemObject item 1 time)
  = restingMatrix item (treePosition item).
Proof.
  unfold itemObject, restingMatrix. cbn [THREE.matrix].
  rewrite itemPosition_assembled.
  replace (time * speed item * 0.2 * (1.0 - smoothstep 1)) with 0
    by (unfold smoothstep; lra).
  rewrite !Rplus_0_r. reflexivity.
Qed.

(** X21: at progress 1 the ornaments are motionless: the transform buffer
    a frame leaves does not depend on the elapsed time (nor on what the
    buffer held), and every instance has the transform that places it at
    its tree position with its rotation seed, the spin term having decayed
    to nothing. *)
Theorem assembled_ornaments_are_motionless
    (data : list PositionData) (st1 st2 : State) (time1 time2 : R)
    (Hst1 : length (instanceMatrix st1) = (16 * length data)%nat)
    (Hst2 : length (instanceMatrix st2) = (16 * length data)%nat) :
  instanceMatrix (useFrame data time1 1 st1)
  = instanceMatrix (useFrame data time2 1 st2)
  /\ instanceMatrix (useFrame data time1 1 st1)
     = flat_map (fun item => restingMatrix item (treePosition item)) data.
Proof.
  assert (Hone : forall time st,
    length (instanceMatrix st) = (16 * length data)%nat ->
    instanceMatrix (useFrame data time 1 st)
    = flat_map (fun item => restingMatrix item (treePosition item)) data).
  { intros time st Hst. rewrite useFrame_instanceMatrix by exact Hst.
    clear. induction data as [|item data IH]; [reflexivity|].
    cbn [flat_map]. rewrite IH, itemObject_assembled. reflexivity. }
  split; [|apply Hone, Hst1].
  rewrite !Hone by assumption. reflexivity.
Qed.

Lemma assembled_ornaments_are_motionless_witness :
  instanceMatrix (useFrame [sampleItem] 3 1 (sampleState 9))
  = instanceMatrix (useFrame [sampleItem] 8 1 (sampleState 0)).
Proof.
  refine (proj1 (assembled_ornaments_are_motionless [sampleItem]
                   (sampleState 9) (sampleState 0) 3 8 _ _)); reflexivity.
Defined.

(** X22: for a progress in [[0,1]], every instance is drawn inside the box
    spanned by its scatter and tree positions in x and z, and within
    [0.5 (1 - t)] of the blended height in y, [t] being the eased
    progress. *)
Theorem ornament_stays_between_its_formations
    (data : list PositionData) (st : State) (i : nat) (item : PositionData)
    (time progress : R)
    (Hbuffer : length (instanceMatrix st) = (16 * length data)%nat)
    (Hitem : data !! i = Some item)
    (Hprogress : 0 <= progress <= 1) :
  let t := smoothstep progress in
  exists p,
    instancePosition (useFrame data time progress st) i = Some p
    /\ 0 <= t <= 1
    /\ Rmin (scatterPosition item).1.1 (treePosition item).1.1 <= THREE.x p
       <= Rmax (scatterPosition item).1.1 (treePosition item).1.1
    /\ Rmin (scatterPosition item).2 (treePosition item).2 <= THREE.z p
       <= Rmax (scatterPosition item).2 (treePosition item).2
    /\ Rabs (THREE.y p
             - THREE.MathUtils.lerp (scatterPosition item).1.2
                                    (treePosition item).1.2 t)
       <= 0.5 * (1 - t).
Proof.
  intros t.
  assert (Ht : 0 <= t <= 1).
  { unfold t.
    assert (H0 : smoothstep 0 = 0) by (unfold smoothstep; lra).
    assert (H1 : smoothstep 1 = 1) by (unfold smoothstep; lra).
    assert (Hlow := smoothstep_monotone 0 progress ltac:(lra) ltac:(lra)).
    assert (Hhigh := smoothstep_monotone progress 1 ltac:(lra) ltac:(lra)).
    lra. }
  eexists. split; [apply instancePosition_useFrame; eassumption|].
  split; [exact Ht|]. unfold itemPosition. cbn [THREE.x THREE.y THREE.z].
  fold t. split; [apply lerp_between, Ht|]. split; [apply lerp_between, Ht|].
  match goal with
  | |- Rabs (?b + ?f - ?b) <= _ => replace (b + f - b) with f by ring
  end.
  unfold Math.sin. assert (Hsin := SIN_bound (time * speed item + phase item)).
  apply Rabs_le. set (u := sin (time * speed item + phase item)) in *. nra.
Qed.

Lemma ornament_stays_between_its_formations_witness :
  exists p,
    instancePosition (useFrame [sampleItem] 3 0.5 (sampleState 9)) 0 = Some p
    /\ 0 <= smoothstep 0.5 <= 1
    /\ Rmin 0 1 <= THREE.x p <= Rmax 0 1
    /\ Rmin 0 3 <= THREE.z p <= Rmax 0 3
    /\ Rabs (THREE.y p - THREE.MathUtils.lerp 0 2 (smoothstep 0.5))
       <= 0.5 * (1 - smoothstep 0.5).
Proof.
  refine (ornament_stays_between_its_formations [sampleItem] (sampleState 9)
            0 sampleItem 3 0.5 _ _ _); [reflexivity|reflexivity|lra].
Defined.
Lemma getScatterPosition_Some radius rand :
  0 <= rand 1%nat <= 1 ->
  MathUtil.getScatterPosition radius rand
  = Some (spherical (Math.cbrt (rand 2%nat) * radius)
                    (2 * Math.PI * rand 0%nat)
                    (Ratan.acos (2 * rand 1%nat - 1))).
Proof.
  intros Hv. unfold MathUtil.getScatterPosition.
  rewrite Math_acos_Some by lra. reflexivity.
Qed.

Lemma draws_ok_later k rand : draws_ok rand -> draws_ok (later k rand).
Proof. intros H n. apply H. Qed.

(** X23: from draws that [Math.random] can return, and for an index below
    [count], an ornament item is always produced, and its fields are in
    range: the tree position is within 0.25 per coordinate of the spiral
    sample of the cone (height 11, base radius 4.5), the scatter position
    within the sphere of radius 12, the rotation seed in [[0, pi)] about x
    and y and 0 about z, the scale between 0.8 and 1.2 times [scaleBase],
    the speed in [[0.2, 0.7)] and the phase in [[0, 2 pi)]. *)
Theorem ornament_item_is_in_range
    (scaleBase : R) (i count : nat) (rand : nat -> R)
    (Hscale : 0 <= scaleBase) (Hi : (i < count)%nat) (Hrand : draws_ok rand) :
  exists item spiral,
    makeItem scaleBase i count rand = Some item
    /\ MathUtil.getTreePosition 11 4.5 6 i count rand = Some spiral
    /\ Rabs ((treePosition item).1.1 - spiral.1.1) <= 0.25
    /\ Rabs ((treePosition item).1.2 - spiral.1.2) <= 0.25
    /\ Rabs ((treePosition item).2 - spiral.2) <= 0.25
    /\ norm (scatterPosition item) <= 12
    /\ 0 <= (rotation item).1.1 < Math.PI
    /\ 0 <= (rotation item).1.2 < Math.PI
    /\ (rotation item).2 = 0
    /\ 0.8 * scaleBase <= scale item <= 1.2 * scaleBase
    /\ 0.2 <= speed item < 0.7
    /\ 0 <= phase item < 2 * Math.PI.
Proof.
  assert (Hpi := PI_RGT_0).
  assert (Hd : forall k, 0 <= rand k < 1) by exact Hrand.
  eexists _, _. unfold makeItem.
  rewrite getTreePosition_Some by (try lra; try lia; apply Hd).
  cbn [mbind option_bind].
  rewrite getScatterPosition_Some by (unfold later; specialize (Hd (1 + 4)%nat); lra).
  cbn [mbind option_bind].
  split; [reflexivity|]. split; [reflexivity|].
  cbn [treePosition scatterPosition rotation scale speed phase fst snd polar].
  assert (Hjitter : forall b u, 0 <= u < 1 -> Rabs (b + (u - 0.5) * 0.5 - b) <= 0.25).
  { intros b u Hu. apply Rabs_le. lra. }
  split; [apply Hjitter, Hd|]. split; [apply Hjitter, Hd|].
  split; [apply Hjitter, Hd|].
  split.
  { assert (Hc := Math_cbrt_unit (later 4 rand 2%nat) (Hd _)).
    rewrite norm_spherical by nra. nra. }
  unfold Math.PI.
  assert (H7 := Hd 7%nat). assert (H8 := Hd 8%nat). assert (H9 := Hd 9%nat).
  assert (H10 := Hd 10%nat). assert (H11 := Hd 11%nat).
  repeat split; try nra; lra.
Qed.

Lemma ornament_item_is_in_range_witness :
  exists item spiral,
    makeItem 0.35 0 150 (fun _ => 0.5) = Some item
    /\ MathUtil.getTreePosition 11 4.5 6 0 150 (fun _ => 0.5) = Some spiral
    /\ Rabs ((treePosition item).1.1 - spiral.1.1) <= 0.25
    /\ Rabs ((treePosition item).1.2 - spiral.1.2) <= 0.25
    /\ Rabs ((treePosition item).2 - spiral.2) <= 0.25
    /\ norm (scatterPosition item) <= 12
    /\ 0 <= (rotation item).1.1 < Math.PI
    /\ 0 <= (rotation item).1.2 < Math.PI
    /\ (rotation item).2 = 0
    /\ 0.8 * 0.35 <= scale item <= 1.2 * 0.35
    /\ 0.2 <= speed item < 0.7
    /\ 0 <= phase item < 2 * Math.PI.
Proof.
  refine (ornament_item_is_in_range 0.35 0 150 (fun _ => 0.5) _ _ _).
  - lra.
  - lia.
  - intros k. lra.
Defined.

Lemma makeItem_is_Some scaleBase i count rand :
  (i < count)%nat -> draws_ok rand ->
  is_Some (makeItem scaleBase i count rand).
Proof.
  intros Hi Hrand. unfold makeItem.
  rewrite getTreePosition_Some by (try lra; try lia; apply Hrand).
  cbn [mbind option_bind].
  rewrite getScatterPosition_Some
    by (unfold later; specialize (Hrand (1 + 4)%nat); lra).
  cbn [mbind option_bind]. eauto.
Qed.

(** X24: from draws that [Math.random] can return, the ornament data is
    always produced, for any [count] including 0: it has [count] items, and
    item [i] is the one made from the twelve draws starting at draw
    [12 i]. *)
Theorem ornament_data_is_complete
    (count : nat) (scaleBase : R) (rand : nat -> R) (Hrand : draws_ok rand) :
  exists data,
    makeData count scaleBase rand = Some data
    /\ length data = count
    /\ (forall i, (i < count)%nat ->
          is_Some (data !! i)
          /\ data !! i = makeItem scaleBase i count (later (12 * i) rand)).
Proof.
  unfold makeData.
  destruct (for_each_invariant
    (fun k (acc : list PositionData) =>
       length acc = k
       /\ forall j, (j < k)%nat ->
            acc !! j = makeItem scaleBase j count (later (12 * j) rand))
    (fun i items =>
       item ← makeItem scaleBase i count (later (12 * i) rand);
       Some (items ++ [item]))
    count 0 []) as (data & Hdata & Hlen & Hitems).
  - split; [reflexivity|]. intros j Hj. lia.
  - intros i acc Hi [Hlen Hacc].
    destruct (makeItem_is_Some scaleBase i count (later (12 * i) rand)
                ltac:(lia) (draws_ok_later _ _ Hrand)) as [item Hitem].
    rewrite Hitem. cbn [mbind option_bind]. eexists. split; [reflexivity|].
    split; [rewrite length_app, Hlen; simpl; lia|].
    intros j Hj. destruct (Nat.eq_dec j i) as [-> | Hne].
    + rewrite lookup_app_r by lia. rewrite Hlen, Nat.sub_diag, Hitem.
      reflexivity.
    + rewrite lookup_app_l by lia. apply Hacc. lia.
  - exists data. split; [exact Hdata|]. split; [exact Hlen|].
    intros i Hi. split; [|apply Hitems; lia].
    apply lookup_lt_is_Some_2. lia.
Qed.

Lemma ornament_data_is_complete_witness :
  exists data,
    makeData 2 0.35 (fun _ => 0.5) = Some data
    /\ length data = 2%nat
    /\ (forall i, (i < 2)%nat ->
          is_Some (data !! i)
          /\ data !! i = makeItem 0.35 i 2 (later (12 * i) (fun _ => 0.5))).
Proof.
  refine (ornament_data_is_complete 2 0.35 (fun _ => 0.5) _).
  intros k. lra.
Defined.

End OrnamentExtras.

(** ** Particle field: the buffers and the fragment stage *)
Section ParticleBuffers.
Import FoliagePoints.

Lemma typed_set_fits (done rest vals : list R) (off : nat) :
  length done = off -> (length vals <= length rest)%nat ->
  typed_set (done ++ rest) vals off
  = Some (done ++ vals ++ drop (length vals) rest).
Proof.
  intros <- Hfit. unfold typed_set.
  destruct (Nat.leb_spec (length done + length vals) (length (done ++ rest)))
    as [_ | Hbad].
  - rewrite write_at_app by exact Hfit. reflexivity.
  - rewrite length_app in Hbad. lia.
Qed.

Lemma triple_prefix_length (g : R -> R) (f : nat -> triple) k :
  length (flat_map (fun i => map g (triple_entries (f i))) (seq 0 k))
  = (3 * k)%nat.
Proof.
  induction k as [|k IH]; [reflexivity|].
  rewrite seq_S, flat_map_snoc, length_app, IH. simpl. lia.
Qed.

(** X25: from draws that [Math.random] can return, the particle buffers
    are always produced, for any [count] including 0, and whatever the
    rounding [fround] of the stores.  Particle [i] takes the five draws from
    [5 i] on: its scatter triple is the rounded sample in the sphere of
    radius 15 from the first three, its tree triple the rounded spiral
    sample of the cone (height 12, base radius 5, offset 6) from the fourth,
    and its random scalar the rounded fifth.  The two position buffers hold
    [3 count] numbers and the scalar buffer [count].  When the rounding is
    monotone and keeps 0 and 1, as rounding to the nearest binary32 value
    does, every random scalar is in [[0,1]]: a draw below 1 may be stored
    as 1. *)
Theorem particle_buffers_are_complete
    (fround : R -> R) (count : nat) (rand : nat -> R) (Hrand : draws_ok rand) :
  let scatter i :=
    spherical (Math.cbrt (rand (5 * i + 2)%nat) * 15)
              (2 * Math.PI * rand (5 * i)%nat)
              (Ratan.acos (2 * rand (5 * i + 1)%nat - 1)) in
  let tree i :=
    polar ((1 - INR i / INR count) * 5 * R_sqrt.sqrt (rand (5 * i + 3)%nat))
          (INR i * MathUtil.goldenAngle)
          (INR i / INR count * 12 - 6) in
  exists b,
    makeBuffers fround count rand = Some b
    /\ positionsScatter b
       = flat_map (fun i => map fround (triple_entries (scatter i)))
                  (seq 0 count)
    /\ positionsTree b
       = flat_map (fun i => map fround (triple_entries (tree i))) (seq 0 count)
    /\ randoms b = map (fun i => fround (rand (5 * i + 4)%nat)) (seq 0 count)
    /\ length (positionsScatter b) = (3 * count)%nat
    /\ length (positionsTree b) = (3 * count)%nat
    /\ length (randoms b) = count
    /\ ((forall a b, a <= b -> fround a <= fround b) ->
        fround 0 = 0 -> fround 1 = 1 ->
        Forall (fun a => 0 <= a <= 1) (randoms b)).
Proof.
  intros scatter tree. unfold makeBuffers.
  destruct (for_each_invariant
    (fun k (b : Buffers) =>
       positionsScatter b
       = flat_map (fun i => map fround (triple_entries (scatter i))) (seq 0 k)
         ++ replicate (3 * (count - k)) 0
       /\ positionsTree b
          = flat_map (fun i => map fround (triple_entries (tree i))) (seq 0 k)
            ++ replicate (3 * (count - k)) 0
       /\ randoms b
          = map (fun i => fround (rand (5 * i + 4)%nat)) (seq 0 k)
            ++ replicate (count - k) 0)
    (fill fround count rand) count 0
    {| positionsScatter := replicate (count * 3) 0;
       positionsTree := replicate (count * 3) 0;
       randoms := replicate count 0 |})
    as (b & Hb & Hs & Ht & Hr).
  - cbn [positionsScatter positionsTree randoms seq flat_map map app].
    rewrite Nat.sub_0_r. repeat split; f_equal; lia.
  - intros i [ps pt rs] Hi (Hs & Ht & Hr).
    cbn [positionsScatter positionsTree randoms] in Hs, Ht, Hr.
    unfold fill. cbn [positionsScatter positionsTree randoms].
    rewrite getScatterPosition_Some
      by (unfold later; specialize (Hrand (1 + 5 * i)%nat); lra).
    cbn [mbind option_bind].
    rewrite getTreePosition_Some
      by (try lra; try lia; unfold later; specialize (Hrand (0 + (5 * i + 3))%nat); lra).
    cbn [mbind option_bind].
    assert (Hscatter :
      spherical (Math.cbrt (later (5 * i) rand 2%nat) * 15)
                (2 * Math.PI * later (5 * i) rand 0%nat)
                (Ratan.acos (2 * later (5 * i) rand 1%nat - 1)) = scatter i).
    { unfold scatter, later.
      replace (2 + 5 * i)%nat with (5 * i + 2)%nat by lia.
      replace (0 + 5 * i)%nat with (5 * i)%nat by lia.
      replace (1 + 5 * i)%nat with (5 * i + 1)%nat by lia. reflexivity. }
    assert (Htree :
      polar ((1 - INR i / INR count) * 5
             * R_sqrt.sqrt (later (5 * i + 3) rand 0%nat))
            (INR i * MathUtil.goldenAngle) (INR i / INR count * 12 - 6)
      = tree i) by reflexivity.
    rewrite Hscatter, Htree, Hs, Ht.
    replace (3 * (count - i))%nat with (3 + 3 * (count - S i))%nat by lia.
    rewrite !typed_set_fits;
      [|apply eq_trans with (3 * i)%nat; [apply triple_prefix_length|lia]
       |rewrite length_replicate; simpl; lia
       |apply eq_trans with (3 * i)%nat; [apply triple_prefix_length|lia]
       |rewrite length_replicate; simpl; lia].
    cbn [mbind option_bind]. eexists. split; [reflexivity|].
    cbn [positionsScatter positionsTree randoms].
    rewrite !seq_S, !flat_map_snoc, map_app.
    change (length [_; _; _]) with 3%nat.
    rewrite !drop_replicate.
    replace (3 + 3 * (count - S i) - 3)%nat with (3 * (count - S i))%nat by lia.
    cbn [triple_entries map].
    split; [rewrite <- app_assoc; reflexivity|].
    split; [rewrite <- app_assoc; reflexivity|].
    rewrite Hr.
    replace (count - i)%nat with (S (count - S i)) by lia. cbn [replicate].
    replace i
      with (length (map (fun i0 => fround (rand (5 * i0 + 4)%nat)) (seq 0 i)) + 0)%nat
      at 1 by (rewrite length_map, length_seq; lia).
    rewrite insert_app_r. cbn [insert list_insert map app].
    rewrite <- app_assoc. reflexivity.
  - exists b. split; [exact Hb|].
    rewrite Nat.sub_diag in Hs, Ht, Hr.
    change (3 * 0)%nat with 0%nat in Hs, Ht.
    cbn [replicate] in Hs, Ht, Hr.
    rewrite app_nil_r in Hs, Ht, Hr.
    split; [exact Hs|]. split; [exact Ht|]. split; [exact Hr|].
    rewrite Hs, Ht, Hr, !triple_prefix_length, length_map, length_seq.
    repeat split.
    intros Hmono H0 H1.
    apply Forall_forall. intros a Ha.
    apply list_elem_of_In, in_map_iff in Ha. destruct Ha as (i & <- & _).
    destruct (Hrand (5 * i + 4)%nat) as [Hlo Hhi].
    split.
    + rewrite <- H0. apply Hmono, Hlo.
    + rewrite <- H1. apply Hmono. lra.
Qed.

Lemma particle_buffers_are_complete_witness :
  exists b,
    makeBuffers (fun a => a) 2 (fun _ => 0.5) = Some b
    /\ length (randoms b) = 2%nat
    /\ Forall (fun a => 0 <= a <= 1) (randoms b).
Proof.
  destruct (particle_buffers_are_complete (fun a => a) 2 (fun _ => 0.5))
    as (b & Hb & _ & _ & _ & _ & _ & Hlen & Hunit).
  - intros k. lra.
  - exists b. split; [exact Hb|]. split; [exact Hlen|].
    apply Hunit; [intros x y Hxy; exact Hxy|reflexivity|reflexivity].
Defined.

End ParticleBuffers.

Section ParticleFragments.
Import FoliagePoints.

Lemma pow_on_unit_interval g :
  0 <= g <= 1 -> exists v, pow g 1.5 = Some v /\ 0 <= v <= 1.
Proof.
  intros Hg. unfold pow. destruct Rlt_dec as [Hneg | _]; [lra|].
  destruct Req_dec_T as [Hzero | Hnz].
  - destruct Rle_dec as [Hbad | _]; [lra|]. exists 0. split; [reflexivity|lra].
  - exists (Rpower g 1.5). split; [reflexivity|].
    unfold Rpower. split; [left; apply exp_pos|].
    rewrite <- exp_0.
    assert (Hln : ln g <= 0).
    { destruct (Req_dec_T g 1) as [-> | Hne]; [rewrite ln_1; lra|].
      left. rewrite <- ln_1. apply ln_increasing; lra. }
    destruct (Req_dec_T (1.5 * ln g) 0) as [-> | Hne]; [lra|].
    left. apply exp_increasing. nra.
Qed.

Lemma fragment_cases vAlpha vColor cx cy :
  let r := R_sqrt.sqrt ((cx - 0.5) * (cx - 0.5) + (cy - 0.5) * (cy - 0.5)) in
  (0.5 < r /\ fragment vAlpha vColor cx cy = Some discarded)
  \/ (r <= 0.5
      /\ exists glow,
           0 <= glow <= 1
           /\ fragment vAlpha vColor cx cy
              = Some (written (Foliage.x vColor) (Foliage.y vColor)
                              (Foliage.z vColor) (vAlpha * glow))).
Proof.
  intros r. unfold fragment. fold r.
  destruct Rlt_dec as [Hout | Hin]; [left; split; [exact Hout|reflexivity]|].
  right. split; [lra|].
  assert (Hr : 0 <= r) by apply sqrt_pos.
  destruct (pow_on_unit_interval (1.0 - r * 2.0) ltac:(lra)) as (v & Hv & Hbound).
  exists v. split; [exact Hbound|]. rewrite Hv. reflexivity.
Qed.

(** X26: the fragment stage is defined at every point coordinate.  A
    fragment farther than 0.5 from the centre of the point sprite is
    discarded; any other one is written in the colour handed over by the
    vertex stage, with an alpha of [vAlpha] times a glow in [[0,1]], so
    between 0 and [vAlpha]; at the centre the glow is 1 and the alpha is
    [vAlpha] itself. *)
Theorem fragment_alpha_is_bounded
    (vAlpha : R) (vColor : Foliage.vec3) (cx cy : R) (Halpha : 0 <= vAlpha) :
  let r := R_sqrt.sqrt ((cx - 0.5) * (cx - 0.5) + (cy - 0.5) * (cy - 0.5)) in
  ((0.5 < r /\ fragment vAlpha vColor cx cy = Some discarded)
   \/ (r <= 0.5
       /\ exists alpha,
            0 <= alpha <= vAlpha
            /\ fragment vAlpha vColor cx cy
               = Some (written (Foliage.x vColor) (Foliage.y vColor)
                               (Foliage.z vColor) alpha)))
  /\ fragment vAlpha vColor 0.5 0.5
     = Some (written (Foliage.x vColor) (Foliage.y vColor)
                     (Foliage.z vColor) vAlpha).
Proof.
  intros r. split.
  - destruct (fragment_cases vAlpha vColor cx cy) as [Hout | (Hin & glow & Hglow & Hfrag)];
      [left; exact Hout|].
    right. split; [exact Hin|]. exists (vAlpha * glow). split; [nra|exact Hfrag].
  - unfold fragment.
    replace ((0.5 - 0.5) * (0.5 - 0.5) + (0.5 - 0.5) * (0.5 - 0.5)) with 0 by lra.
    rewrite sqrt_0. destruct Rlt_dec as [Hbad | _]; [lra|].
    replace (1.0 - 0 * 2.0) with 1 by lra.
    unfold pow. destruct Rlt_dec as [Hbad | _]; [lra|].
    destruct Req_dec_T as [Hbad | _]; [lra|].
    cbn [mbind option_bind]. unfold Rpower.
    rewrite ln_1, Rmult_0_r, exp_0, Rmult_1_r. reflexivity.
Qed.

Lemma fragment_alpha_is_bounded_witness :
  fragment 0.9 (Foliage.mkvec3 1 1 1) 0.5 0.5 = Some (written 1 1 1 0.9).
Proof.
  refine (proj2 (fragment_alpha_is_bounded 0.9 (Foliage.mkvec3 1 1 1) 0 0 _)).
  lra.
Defined.

(** X27: for a progress in [[0,1]], and whatever the noise function, the
    vertex stage hands on a point size
    factor between 8 and 15, falling as the progress rises, and an alpha
    between 0.6 and 0.9, rising with it; whatever the fragment stage then
    writes for the point has an alpha between 0 and 0.9. *)
Theorem particle_size_and_alpha_are_bounded
    (snoise : Foliage.vec3 -> R)
    (u : Foliage.Uniforms) (a : Foliage.Attributes) (cx cy : R)
    (Hprogress : 0 <= Foliage.uProgress u <= 1) :
  let out := Foliage.main snoise u a in
  Foliage.size out = 15 - 7 * Foliage.uProgress u
  /\ 8 <= Foliage.size out <= 15
  /\ Foliage.vAlpha out = 0.6 + 0.3 * Foliage.uProgress u
  /\ 0.6 <= Foliage.vAlpha out <= 0.9
  /\ (forall red green blue alpha,
        fragment (Foliage.vAlpha out) (Foliage.vColor out) cx cy
        = Some (written red green blue alpha) ->
        0 <= alpha <= 0.9).
Proof.
  intros out.
  assert (Hsize : Foliage.size out = 15 - 7 * Foliage.uProgress u).
  { change (Foliage.size out) with (Foliage.mix 15.0 8.0 (Foliage.uProgress u)).
    unfold Foliage.mix. lra. }
  assert (Halpha : Foliage.vAlpha out = 0.6 + 0.3 * Foliage.uProgress u).
  { change (Foliage.vAlpha out) with (Foliage.mix 0.6 0.9 (Foliage.uProgress u)).
    unfold Foliage.mix. lra. }
  split; [exact Hsize|]. split; [lra|]. split; [exact Halpha|].
  split; [lra|].
  intros red green blue alpha Hfrag.
  destruct (fragment_cases (Foliage.vAlpha out) (Foliage.vColor out) cx cy)
    as [[_ Hout] | (_ & glow & Hglow & Hin)].
  - rewrite Hout in Hfrag. discriminate.
  - rewrite Hin in Hfrag. injection Hfrag as _ _ _ <-.
    assert (Hv : 0.6 <= Foliage.vAlpha out <= 0.9) by lra.
    change (Foliage.mix 0.6 0.9 (Foliage.uProgress u))
      with (Foliage.vAlpha out).
    split.
    + apply Rmult_le_pos; lra.
    + apply Rle_trans with (Foliage.vAlpha out * 1); [|lra].
      apply Rmult_le_compat_l; lra.
Qed.

Lemma particle_size_and_alpha_are_bounded_witness :
  8 <= Foliage.size
         (Foliage.main (fun v => Foliage.x v)
            {| Foliage.uTime := 0; Foliage.uProgress := 0.5;
               Foliage.uColorHigh := Foliage.mkvec3 0 1 0;
               Foliage.uColorLow := Foliage.mkvec3 0 0 0;
               Foliage.uColorGold := Foliage.mkvec3 1 1 0 |}
            {| Foliage.aScatterPos := Foliage.mkvec3 1 2 3;
               Foliage.aTreePos := Foliage.mkvec3 0 1 0;
               Foliage.aRandom := 0.5 |}) <= 15.
Proof.
  refine (proj1 (proj2
    (particle_size_and_alpha_are_bounded (fun v => Foliage.x v)
       {| Foliage.uTime := 0; Foliage.uProgress := 0.5;
          Foliage.uColorHigh := Foliage.mkvec3 0 1 0;
          Foliage.uColorLow := Foliage.mkvec3 0 0 0;
          Foliage.uColorGold := Foliage.mkvec3 1 1 0 |}
       {| Foliage.aScatterPos := Foliage.mkvec3 1 2 3;
          Foliage.aTreePos := Foliage.mkvec3 0 1 0;
          Foliage.aRandom := 0.5 |} 0.5 0.5 _))).
  simpl. lra.
Defined.

End ParticleFragments.
